(** * cryptichunt: the progression engine and the leaderboard of [server.js]

    A shallow embedding of the request handlers of [src/server.js] over an
    explicit model of the two SQLite tables, followed by the properties of
    the unlock rule, of answer matching, of registration and of the
    leaderboard query. *)

From Stdlib Require Import ZArith List String Ascii Bool Lia.
From Stdlib Require Import Permutation Sorted DecimalString.
Import ListNotations.

Open Scope string_scope.
Open Scope Z_scope.

Set Warnings "-register-all".

(** ** JavaScript values

    Text is a sequence of code units; the operations of [norm] are given for
    code units up to U+00FF, which one [ascii] holds.  The prompts of
    [LEVELS] are carried verbatim and nothing inspects them. *)

(** A number is either an integer below 10^21 in magnitude, which
    [Number::toString] prints in decimal, or any other double (a fraction, a
    larger magnitude, an infinity, NaN), which is carried by what
    [Number::toString] prints for it. *)
Inductive number : Type :=
| NInt (z : Z)
| NOther (shown : string).

(** What [JSON.parse] can put into [req.body], plus [undefined] for a field
    that is absent.  Such a value is never callable. *)
Inductive value : Type :=
| VUndefined
| VNull
| VBool (b : bool)
| VNum (x : number)
| VStr (s : string)
| VArr (xs : list value)
| VObj (props : list (string * value)).

Inductive exn : Type :=
| TypeError
| SqliteError (code : string).

(** The result of an expression or a statement that may throw. *)
Inductive outcome (A : Type) : Type :=
| Return (a : A)
| Throw (e : exn).
Arguments Return {A} a.
Arguments Throw {A} e.

Definition bind {A B : Type} (m : outcome A) (k : A -> outcome B) : outcome B :=
  match m with
  | Return a => k a
  | Throw e => Throw e
  end.

Notation "x <- m ;; k" := (bind m (fun x => k))
  (at level 61, m at next level, right associativity).

Definition number_toString (x : number) : string :=
  match x with
  | NInt z => NilEmpty.string_of_int (Z.to_int z)
  | NOther shown => shown
  end.

(** [!v] is false exactly for these. *)
Definition truthy (v : value) : bool :=
  match v with
  | VUndefined | VNull => false
  | VBool b => b
  | VNum (NInt z) => negb (z =? 0)
  | VNum (NOther shown) => negb (shown =? "NaN")%string
  | VStr s => negb (s =? "")%string
  | VArr _ | VObj _ => true
  end.

Fixpoint has_own (key : string) (props : list (string * value)) : bool :=
  match props with
  | [] => false
  | (k, _) :: rest => (k =? key)%string || has_own key rest
  end.

(** [Array.prototype.join] on the strings of the elements. *)
Fixpoint join (parts : list string) : string :=
  match parts with
  | [] => ""
  | [p] => p
  | p :: rest => p ++ "," ++ join rest
  end.

(** The abstract operation ToString.  An object is converted by its
    [toString] method: the inherited one gives "[object Object]"; an own
    property of that name is not callable, [valueOf] then returns the object
    itself, and the conversion throws.  An array is joined, its [undefined]
    and [null] elements as empty strings. *)
Fixpoint ToString (v : value) : outcome string :=
  match v with
  | VUndefined => Return "undefined"
  | VNull => Return "null"
  | VBool true => Return "true"
  | VBool false => Return "false"
  | VNum x => Return (number_toString x)
  | VStr s => Return s
  | VArr xs =>
      parts <- (fix elements (l : list value) : outcome (list string) :=
                  match l with
                  | [] => Return []
                  | x :: rest =>
                      s <- match x with
                           | VUndefined | VNull => Return ""
                           | _ => ToString x
                           end ;;
                      ss <- elements rest ;;
                      Return (s :: ss)
                  end) xs ;;
      Return (join parts)
  | VObj props =>
      if has_own "toString" props then Throw TypeError
      else Return "[object Object]"
  end.

(** The method call [v.toString()] on a value that is neither [undefined]
    nor [null]: the [toString] of the wrapper prototypes, of
    [Array.prototype], or the object's own property, which cannot be
    called. *)
Definition toString (v : value) : outcome string :=
  match v with
  | VUndefined | VNull => Throw TypeError
  | _ => ToString v
  end.

(** *** [String.prototype.trim] and [String.prototype.toLowerCase] *)

(** WhiteSpace and LineTerminator: TAB, LF, VT, FF, CR, SP and NBSP. *)
Definition is_white (c : ascii) : bool :=
  let n := N_of_ascii c in
  ((9 <=? n) && (n <=? 13) || (n =? 32) || (n =? 160))%N.

Definition lower (c : ascii) : ascii :=
  let n := N_of_ascii c in
  if ((65 <=? n) && (n <=? 90)
      || (192 <=? n) && (n <=? 222) && negb (n =? 215))%N
  then ascii_of_N (n + 32) else c.

Fixpoint toLowerCase (s : string) : string :=
  match s with
  | EmptyString => EmptyString
  | String c rest => String (lower c) (toLowerCase rest)
  end.

Fixpoint trimStart (s : string) : string :=
  match s with
  | EmptyString => EmptyString
  | String c rest => if is_white c then trimStart rest else s
  end.

Fixpoint trimEnd (s : string) : string :=
  match s with
  | EmptyString => EmptyString
  | String c rest =>
      match trimEnd rest with
      | EmptyString => if is_white c then EmptyString else String c EmptyString
      | kept => String c kept
      end
  end.

Definition trim (s : string) : string := trimEnd (trimStart s).

(** ** The levels *)

Module Level.
Record t : Type := { id : Z; prompt : string; answer : string }.
End Level.

Definition LEVELS : list Level.t :=
  [ {| Level.id := 1;
       Level.prompt := "I speak without a mouth and hear without ears. What am I?";
       Level.answer := "echo" |};
    {| Level.id := 2;
       Level.prompt := "Find the hidden word in: C R Y P T I C — remove edges, read center.";
       Level.answer := "rypti" |};
    {| Level.id := 3;
       Level.prompt := "An anagram of “LISTEN” that is a verb.";
       Level.answer := "silent" |};
    {| Level.id := 4;
       Level.prompt := "Binary 01101000 01110101 01101110 01110100";
       Level.answer := "hunt" |};
    {| Level.id := 5;
       Level.prompt := "Clock puzzle: 3:15 angle smaller one?";
       Level.answer := "7.5" |};
    {| Level.id := 6;
       Level.prompt := "Vigenere key=RING. Cipher: VYYMZ QN. Plain?";
       Level.answer := "solve me" |};
    {| Level.id := 7;
       Level.prompt := "Acrostic of: Hidden Under Nightfall Trail";
       Level.answer := "hunt" |};
    {| Level.id := 8;
       Level.prompt := "MD5 of answer is 5d41402abc4b2a76b9719d911017c592";
       Level.answer := "hello" |};
    {| Level.id := 9;
       Level.prompt := "Roman: XIV + VI = ?";
       Level.answer := "20" |};
    {| Level.id := 10;
       Level.prompt := "Final: keyword from levels 1,4,7 combined.";
       Level.answer := "echohunthunt" |} ].

(** [LEVELS.length] *)
Definition N_LEVELS : Z := Z.of_nat (List.length LEVELS).

(** [const norm = s => (s || '').toString().trim().toLowerCase()] *)
Definition norm (s : value) : outcome string :=
  str <- toString (if truthy s then s else VStr "") ;;
  Return (toLowerCase (trim str)).


(** ** The database

    The two tables of [db.exec], each a list of rows in insertion order. *)

Module User.
Record row : Type :=
  { id : string; username : string; password_hash : string; created_at : Z }.
End User.

Module Progress.
Record row : Type :=
  { user_id : string; level : Z; is_solved : Z; solved_at : option Z }.
End Progress.

Record db : Type := { users : list User.row; progress : list Progress.row }.

Definition empty_db : db := {| users := []; progress := [] |}.

Definition SQLITE_CONSTRAINT_UNIQUE : string := "SQLITE_CONSTRAINT_UNIQUE".
Definition SQLITE_CONSTRAINT_PRIMARYKEY : string := "SQLITE_CONSTRAINT_PRIMARYKEY".

(** [ORDER BY]: a stable insertion of each row into the rows after it. *)
Fixpoint insert_sorted {A : Type} (leb : A -> A -> bool) (x : A) (l : list A) : list A :=
  match l with
  | [] => [x]
  | y :: rest => if leb x y then x :: l else y :: insert_sorted leb x rest
  end.

Fixpoint order_by {A : Type} (leb : A -> A -> bool) (l : list A) : list A :=
  match l with
  | [] => []
  | x :: rest => insert_sorted leb x (order_by leb rest)
  end.

(** The aggregates [MAX] and [MIN], which skip NULL and give NULL when
    nothing is left, and [COALESCE(x, 0)]. *)
Fixpoint MAX (vals : list (option Z)) : option Z :=
  match vals with
  | [] => None
  | None :: rest => MAX rest
  | Some a :: rest =>
      match MAX rest with
      | None => Some a
      | Some b => Some (Z.max a b)
      end
  end.

Fixpoint MIN (vals : list (option Z)) : option Z :=
  match vals with
  | [] => None
  | None :: rest => MIN rest
  | Some a :: rest =>
      match MIN rest with
      | None => Some a
      | Some b => Some (Z.min a b)
      end
  end.

Definition COALESCE0 (v : option Z) : Z :=
  match v with
  | Some z => z
  | None => 0
  end.

(** [INSERT INTO users (id, username, password_hash, created_at) VALUES (?, ?, ?, ?)],
    under [id TEXT PRIMARY KEY] and [username TEXT UNIQUE]. *)
Definition insert_user (r : User.row) (d : db) : outcome db :=
  if existsb (fun u => (User.username u =? User.username r)%string) (users d)
  then Throw (SqliteError SQLITE_CONSTRAINT_UNIQUE)
  else if existsb (fun u => (User.id u =? User.id r)%string) (users d)
  then Throw (SqliteError SQLITE_CONSTRAINT_PRIMARYKEY)
  else Return {| users := users d ++ [r]; progress := progress d |}.

Definition has_key (uid : string) (n : Z) (p : Progress.row) : bool :=
  (Progress.user_id p =? uid)%string && (Progress.level p =? n).

(** [INSERT INTO progress (user_id, level, is_solved) VALUES (?, ?, 0)],
    under [PRIMARY KEY (user_id, level)]. *)
Definition insert_progress (uid : string) (i : Z) (d : db) : outcome db :=
  if existsb (has_key uid i) (progress d)
  then Throw (SqliteError SQLITE_CONSTRAINT_PRIMARYKEY)
  else Return {| users := users d;
                 progress := progress d ++
                   [ {| Progress.user_id := uid; Progress.level := i;
                        Progress.is_solved := 0; Progress.solved_at := None |} ] |}.

(** [for (let i = 1; i <= LEVELS.length; i++) insert.run(uid, i)], from
    [i] on with [count] rounds left. *)
Fixpoint seed_from (i : Z) (count : nat) (uid : string) (d : db) : outcome db :=
  match count with
  | O => Return d
  | S count' => d' <- insert_progress uid i d ;; seed_from (i + 1) count' uid d'
  end.

Definition seed (uid : string) (d : db) : outcome db :=
  seed_from 1 (List.length LEVELS) uid d.

(** [db.transaction(fn)]: all of [fn] or, when it throws, nothing of it. *)
Definition transaction (fn : db -> outcome db) (d : db) : outcome db := fn d.

(** [SELECT level, is_solved(, solved_at) FROM progress WHERE user_id = ? ORDER BY level ASC] *)
Definition select_prog (d : db) (uid : string) : list Progress.row :=
  order_by (fun p q => Progress.level p <=? Progress.level q)
    (filter (fun p => (Progress.user_id p =? uid)%string) (progress d)).

(** [SELECT is_solved FROM progress WHERE user_id = ? AND level = ?], [.get] *)
Definition select_already (d : db) (uid : string) (n : Z) : option Progress.row :=
  find (has_key uid n) (progress d).

(** [UPDATE progress SET is_solved = 1, solved_at = ? WHERE user_id = ? AND level = ?] *)
Definition update_solved (now : Z) (uid : string) (n : Z) (d : db) : db :=
  {| users := users d;
     progress :=
       map (fun p =>
              if has_key uid n p
              then {| Progress.user_id := Progress.user_id p;
                      Progress.level := Progress.level p;
                      Progress.is_solved := 1;
                      Progress.solved_at := Some now |}
              else p)
           (progress d) |}.

(** [SELECT * FROM users WHERE username = ?], [.get] *)
Definition select_user (d : db) (name : string) : option User.row :=
  find (fun u => (User.username u =? name)%string) (users d).

(** *** The leaderboard query *)

Module Board.
Record row : Type :=
  { username : string; solved_levels : Z; tiebreak_ts : option Z }.
End Board.

(** The rows that [LEFT JOIN progress p ON p.user_id = u.id] pairs with [u]. *)
Definition joined (d : db) (u : User.row) : list Progress.row :=
  filter (fun p => (Progress.user_id p =? User.id u)%string) (progress d).

(** [SELECT COALESCE(MAX(level),0) FROM progress WHERE user_id = u.id AND is_solved = 1] *)
Definition max_solved_level (d : db) (u : User.row) : Z :=
  COALESCE0
    (MAX (map (fun p => Some (Progress.level p))
            (filter (fun p => (Progress.user_id p =? User.id u)%string
                              && (Progress.is_solved p =? 1))
                    (progress d)))).

(** The select list over the group of [u]. *)
Definition board_row (d : db) (u : User.row) : Board.row :=
  {| Board.username := User.username u;
     Board.solved_levels :=
       COALESCE0
         (MAX (map (fun p => if Progress.is_solved p =? 1
                             then Some (Progress.level p) else None)
                   (joined d u)));
     Board.tiebreak_ts :=
       MIN (map (fun p => if (Progress.is_solved p =? 1)
                             && (Progress.level p =? max_solved_level d u)
                          then Progress.solved_at p else None)
                (joined d u)) |}.

(** [tiebreak_ts ASC NULLS LAST] *)
Definition nulls_last (a b : option Z) : comparison :=
  match a, b with
  | Some x, Some y => x ?= y
  | Some _, None => Lt
  | None, Some _ => Gt
  | None, None => Eq
  end.

(** [ORDER BY solved_levels DESC, tiebreak_ts ASC NULLS LAST, u.username ASC];
    text compares code unit by code unit. *)
Definition board_leb (a b : Board.row) : bool :=
  match Board.solved_levels b ?= Board.solved_levels a with
  | Lt => true
  | Gt => false
  | Eq =>
      match nulls_last (Board.tiebreak_ts a) (Board.tiebreak_ts b) with
      | Lt => true
      | Gt => false
      | Eq => String.leb (Board.username a) (Board.username b)
      end
  end.

(** The whole statement: one group per user, ordered, [LIMIT 100]. *)
Definition select_leaderboard (d : db) : list Board.row :=
  firstn 100 (order_by board_leb (map (board_row d) (users d))).

(** ** The request handlers *)

(** [req.session.user] *)
Record session_user : Type := { sid : string; sname : string }.

(** What a handler sends: [res.status(..).json(..)], or an exception that
    leaves the handler, which Express answers with status 500. *)
Inductive response : Type :=
| Json (status : Z) (body : value)
| Uncaught (e : exn).

(** What a handler does: the database states it commits, in order (a
    statement outside [db.transaction] commits on its own, a transaction
    commits once); the [req.session.user] it writes, if any; its response. *)
Record result : Type :=
  { commits : list db;
    session : option session_user;
    reply : response }.

Definition send (status : Z) (body : value) : result :=
  {| commits := []; session := None; reply := Json status body |}.

Definition error (status : Z) (kind : string) : result :=
  send status (VObj [("error", VStr kind)]).

(** The database after the handler ran on [d]. *)
Definition final (d : db) (r : result) : db := last (commits r) d.

(** [requireAuth]: the user of the session, or nothing when the request is
    answered with 401. *)
Definition requireAuth (sess : option session_user) : option session_user := sess.

Definition unauthorized : result := error 401 "unauthorized".

(** The negation of
    [!Number.isInteger(n) || n < 1 || n > LEVELS.length]. *)
Definition as_level (n : number) : option Z :=
  match n with
  | NInt z => if (1 <=? z) && (z <=? N_LEVELS) then Some z else None
  | NOther _ => None
  end.

(** [Math.max(0, ...prog.filter(p => p.is_solved).map(p => p.level))] *)
Definition highestSolved (prog : list Progress.row) : Z :=
  fold_right Z.max 0
    (map Progress.level (filter (fun p => negb (Progress.is_solved p =? 0)) prog)).

Definition user_json (id username : string) : value :=
  VObj [("id", VStr id); ("username", VStr username)].

(** The [catch] of the registration handler. *)
Definition register_catch (e : exn) : response :=
  match e with
  | SqliteError code =>
      if (code =? SQLITE_CONSTRAINT_UNIQUE)%string
      then Json 409 (VObj [("error", VStr "username_taken")])
      else Json 500 (VObj [("error", VStr "server_error")])
  | TypeError => Json 500 (VObj [("error", VStr "server_error")])
  end.

(** [POST /api/register].  [id] is what [nanoid()] returns, [hash] what
    [bcrypt.hash] resolves to and [now] what [Date.now()] returns; the two
    fields of the body are strings or absent. *)
Definition post_register (id hash : string) (now : Z)
    (username password : option string) (d : db) : result :=
  match username, password with
  | Some username, Some password =>
      if (username =? "")%string || (password =? "")%string
      then error 400 "missing"
      else if (String.length username <? 3)%nat || (24 <? String.length username)%nat
      then error 400 "username_length"
      else if (String.length password <? 6)%nat
      then error 400 "password_length"
      else
        match insert_user {| User.id := id; User.username := username;
                             User.password_hash := hash;
                             User.created_at := now |} d with
        | Throw e => {| commits := []; session := None; reply := register_catch e |}
        | Return d1 =>
            match transaction (seed id) d1 with
            | Throw e =>
                {| commits := [d1]; session := None; reply := register_catch e |}
            | Return d2 =>
                {| commits := [d1; d2];
                   session := Some {| sid := id; sname := username |};
                   reply := Json 200 (VObj [("ok", VBool true);
                                            ("user", user_json id username)]) |}
            end
        end
  | _, _ => error 400 "missing"
  end.

(** [POST /api/login] for a body whose two fields are strings or absent;
    [pw_ok] is what [bcrypt.compare] resolves to.  A field of another type
    is not covered: [bcrypt.compare] rejects on a password that is no
    string, and the handler has no [catch] for that. *)
Definition post_login (username password : option string) (pw_ok : bool)
    (d : db) : result :=
  match username, password with
  | Some username, Some password =>
      if (username =? "")%string || (password =? "")%string
      then error 400 "missing"
      else
        match select_user d username with
        | None => error 401 "invalid"
        | Some row =>
            if pw_ok
            then {| commits := [];
                    session := Some {| sid := User.id row; sname := User.username row |};
                    reply := Json 200
                      (VObj [("ok", VBool true);
                             ("user", user_json (User.id row) (User.username row))]) |}
            else error 401 "invalid"
        end
  | _, _ => error 400 "missing"
  end.

Definition opt_num (v : option Z) : value :=
  match v with
  | Some z => VNum (NInt z)
  | None => VNull
  end.

(** [LEVELS[n - 1]]; reading a field of the [undefined] past the end
    throws. *)
Definition level_at (n : Z) : outcome Level.t :=
  match nth_error LEVELS (Z.to_nat (n - 1)) with
  | Some lv => Return lv
  | None => Throw TypeError
  end.

(** [const expected = LEVELS[n - 1].answer;]
    [const correct = norm(answer) === norm(expected);] *)
Definition check_answer (n : Z) (answer : value) : outcome bool :=
  lv <- level_at n ;;
  let expected := Level.answer lv in
  a <- norm answer ;;
  e <- norm (VStr expected) ;;
  Return (a =? e)%string.

(** [GET /api/me] *)
Definition get_me (sess : option session_user) (d : db) : result :=
  match requireAuth sess with
  | None => unauthorized
  | Some user =>
      let prog := select_prog d (sid user) in
      let highestSolved := highestSolved prog in
      send 200
        (VObj [("user", user_json (sid user) (sname user));
               ("highestSolved", VNum (NInt highestSolved));
               ("totalLevels", VNum (NInt N_LEVELS));
               ("progress",
                VArr (map (fun p =>
                             VObj [("level", VNum (NInt (Progress.level p)));
                                   ("is_solved", VNum (NInt (Progress.is_solved p)));
                                   ("solved_at", opt_num (Progress.solved_at p))])
                          prog))])
  end.

(** [GET /api/level/:level]; [n] is [Number(req.params.level)]. *)
Definition get_level (sess : option session_user) (n : number) (d : db) : result :=
  match requireAuth sess with
  | None => unauthorized
  | Some user =>
      match as_level n with
      | None => error 400 "bad_level"
      | Some n =>
          let prog := select_prog d (sid user) in
          let highestSolved := highestSolved prog in
          if highestSolved + 1 <? n then error 403 "locked"
          else
            match level_at n with
            | Throw e => {| commits := []; session := None; reply := Uncaught e |}
            | Return lv =>
                let prompt := Level.prompt lv in
                let is_solved :=
                  match find (fun p => Progress.level p =? n) prog with
                  | Some p => Progress.is_solved p =? 1
                  | None => false
                  end in
                send 200 (VObj [("level", VNum (NInt n));
                                ("prompt", VStr prompt);
                                ("is_solved", VBool is_solved)])
            end
      end
  end.

(** [POST /api/answer] once [const n = Number(level)] has returned: [level]
    is the number it returned, [answer] the body's field and [now] what
    [Date.now()] returns.  The conversion itself, which can throw, is in
    [post_answer_request] below. *)
Definition post_answer (sess : option session_user) (level : number)
    (answer : value) (now : Z) (d : db) : result :=
  match requireAuth sess with
  | None => unauthorized
  | Some user =>
      match as_level level with
      | None => error 400 "bad_level"
      | Some n =>
          match check_answer n answer with
          | Throw e => {| commits := []; session := None; reply := Uncaught e |}
          | Return correct =>
              let prog := select_prog d (sid user) in
              let highestSolved := highestSolved prog in
              if highestSolved + 1 <? n then error 403 "locked"
              else
                let body := VObj [("correct", VBool correct)] in
                if correct
                then
                  match select_already d (sid user) n with
                  | Some already =>
                      if Progress.is_solved already =? 0
                      then {| commits := [update_solved now (sid user) n d];
                              session := None; reply := Json 200 body |}
                      else send 200 body
                  | None =>
                      {| commits := [update_solved now (sid user) n d];
                         session := None; reply := Json 200 body |}
                  end
                else send 200 body
          end
      end
  end.

(** *** The body of an answer request

    [const n = Number(level)] converts the field of the body before the
    handler does anything else.  [StringToNumber] is the number that
    ECMAScript reads from a text. *)

Section Body.

Variable StringToNumber : string -> number.



End Body.

(** A row as [.all()] returns it: an object with the columns of the select
    list. *)
Definition row_json (r : Board.row) : value :=
  VObj [("username", VStr (Board.username r));
        ("solved_levels", VNum (NInt (Board.solved_levels r)));
        ("tiebreak_ts", opt_num (Board.tiebreak_ts r))].

(** [GET /api/leaderboard] *)
Definition get_leaderboard (d : db) : result :=
  let rows := map row_json (select_leaderboard d) in
  send 200 (VObj [("leaderboard", VArr rows)]).

(** *** Requests and runs *)

Inductive request : Type :=
| PostRegister (id hash : string) (now : Z) (username password : option string)
| PostLogin (username password : option string) (pw_ok : bool)
| GetMe (sess : option session_user)
| GetLevel (sess : option session_user) (n : number)
| PostAnswer (sess : option session_user) (level : number) (answer : value) (now : Z)
| GetLeaderboard.

Definition handle (r : request) (d : db) : result :=
  match r with
  | PostRegister id hash now username password =>
      post_register id hash now username password d
  | PostLogin username password pw_ok => post_login username password pw_ok d
  | GetMe sess => get_me sess d
  | GetLevel sess n => get_level sess n d
  | PostAnswer sess level answer now => post_answer sess level answer now d
  | GetLeaderboard => get_leaderboard d
  end.

Definition step (d : db) (r : request) : db := final d (handle r d).

(** The database after the requests of [rs], served one after the other. *)
Definition run (d : db) (rs : list request) : db := fold_left step rs d.

(** The databases the server can be in. *)
Definition reachable (d : db) : Prop := exists rs, d = run empty_db rs.

(** ** Vocabulary of the statements *)


(** *** Case and white space, code unit by code unit

    The words of the statements on matching, written out without the
    functions of [norm]: the white space of ECMAScript up to U+00FF, and the
    letters up to U+00FF that have a capital and a small form. *)













(** The user may open level [n]: [n > highestSolved + 1] does not hold. *)
Definition unlocked (d : db) (uid : string) (n : Z) : Prop :=
  n <= highestSolved (select_prog d uid) + 1.

(** [needle] occurs in [hay]. *)
Fixpoint contains (needle hay : string) : bool :=
  String.prefix needle hay ||
  match hay with
  | EmptyString => false
  | String _ rest => contains needle rest
  end.

(** The object [{ correct }] of [res.json]. *)
Definition verdict (correct : bool) : response :=
  Json 200 (VObj [("correct", VBool correct)]).

Definition locked : response := Json 403 (VObj [("error", VStr "locked")]).
Definition bad_level : response := Json 400 (VObj [("error", VStr "bad_level")]).

(** The row that the [UPDATE] of a correct answer leaves. *)
Definition solved_row (uid : string) (n now : Z) : Progress.row :=
  {| Progress.user_id := uid; Progress.level := n;
     Progress.is_solved := 1; Progress.solved_at := Some now |}.

(** The records that registration seeds for [uid], from level [i] on. *)
Fixpoint seeded (uid : string) (i : Z) (count : nat) : list Progress.row :=
  match count with
  | O => []
  | S count' =>
      {| Progress.user_id := uid; Progress.level := i;
         Progress.is_solved := 0; Progress.solved_at := None |}
      :: seeded uid (i + 1) count'
  end.

(** Every solved record of [d] has a solved record of its user and level
    in [d']. *)
Definition keeps_solved (d d' : db) : Prop :=
  forall p, In p (progress d) -> Progress.is_solved p <> 0 ->
    exists p', In p' (progress d') /\ Progress.is_solved p' <> 0 /\
               Progress.user_id p' = Progress.user_id p /\
               Progress.level p' = Progress.level p.

Definition key_of (p : Progress.row) : string * Z :=
  (Progress.user_id p, Progress.level p).

(** The constraints of the schema and the shape that the handlers keep:
    one user per id and per name, one record per user and level, every
    record owned by a user, a record either unsolved and without a time or
    solved with one, and the records of a user being those of the levels
    1 to N. *)
Record wf (d : db) : Prop :=
  { wf_ids : NoDup (map User.id (users d));
    wf_names : NoDup (map User.username (users d));
    wf_keys : NoDup (map key_of (progress d));
    wf_owner : forall p, In p (progress d) ->
                 In (Progress.user_id p) (map User.id (users d));
    wf_stamp : forall p, In p (progress d) ->
                 (Progress.is_solved p = 0 /\ Progress.solved_at p = None) \/
                 (Progress.is_solved p = 1 /\ exists t, Progress.solved_at p = Some t);
    wf_range : forall p, In p (progress d) -> 1 <= Progress.level p <= N_LEVELS;
    wf_seeded : forall u n, In u (users d) -> 1 <= n <= N_LEVELS ->
                  exists p, In p (progress d) /\ key_of p = (User.id u, n) }.

(** The ranking in the words of the specification: more solved levels
    first; among equals the earlier tie-break time first, a user without one
    after those with one; among equals again the smaller name first. *)
Definition earlier (a b : option Z) : Prop :=
  match a, b with
  | Some s, Some t => s < t
  | Some _, None => True
  | None, _ => False
  end.

Definition ranks_before (a b : Board.row) : Prop :=
  Board.solved_levels b < Board.solved_levels a \/
  (Board.solved_levels a = Board.solved_levels b /\
   (earlier (Board.tiebreak_ts a) (Board.tiebreak_ts b) \/
    (Board.tiebreak_ts a = Board.tiebreak_ts b /\
     String.leb (Board.username a) (Board.username b) = true))).

(** The entries of a leaderboard response and the field names of one. *)
Definition leaderboard_entries (r : response) : list value :=
  match r with
  | Json _ (VObj [(_, VArr entries)]) => entries
  | _ => []
  end.

Definition field_names (v : value) : list string :=
  match v with
  | VObj props => map fst props
  | _ => []
  end.

(** The same database under other user ids. *)
Definition rename_ids (f : string -> string) (d : db) : db :=
  {| users :=
       map (fun u => {| User.id := f (User.id u); User.username := User.username u;
                        User.password_hash := User.password_hash u;
                        User.created_at := User.created_at u |})
           (users d);
     progress :=
       map (fun p => {| Progress.user_id := f (Progress.user_id p);
                        Progress.level := Progress.level p;
                        Progress.is_solved := Progress.is_solved p;
                        Progress.solved_at := Progress.solved_at p |})
           (progress d) |}.

(** *** A small history, for the examples

    Four users register; B solves the levels 1 to 3 at the times 3, 4, 5 and
    A solves them at 8, 9, 10; "zara" and "amy" solve nothing. *)
Definition userA : session_user := {| sid := "idA"; sname := "userA" |}.
Definition userB : session_user := {| sid := "idB"; sname := "userB" |}.
Definition zara : session_user := {| sid := "idC"; sname := "zara" |}.
Definition amy : session_user := {| sid := "idD"; sname := "amy" |}.

Definition registrations : list request :=
  [ PostRegister "idA" "$2b$12$A" 1 (Some "userA") (Some "secretA");
    PostRegister "idB" "$2b$12$B" 2 (Some "userB") (Some "secretB");
    PostRegister "idC" "$2b$12$C" 3 (Some "zara") (Some "secretC");
    PostRegister "idD" "$2b$12$D" 4 (Some "amy") (Some "secretD") ].

Definition history : list request :=
  (registrations ++
   [ PostAnswer (Some userB) (NInt 1) (VStr "echo") 3;
     PostAnswer (Some userB) (NInt 2) (VStr "RYPTI") 4;
     PostAnswer (Some userB) (NInt 3) (VStr " Silent ") 5;
     PostAnswer (Some userA) (NInt 1) (VStr "Echo") 8;
     PostAnswer (Some userA) (NInt 2) (VStr "rypti") 9;
     PostAnswer (Some userA) (NInt 3) (VStr "silent") 10 ])%list.

Definition registered_db : db := Eval vm_compute in run empty_db registrations.
Definition played_db : db := Eval vm_compute in run empty_db history.

(** *** Vocabulary of the further properties *)


(** Per user, below a solved record every record is solved. *)
Definition gapless (d : db) : Prop :=
  forall p q, In p (progress d) -> In q (progress d) ->
    Progress.user_id p = Progress.user_id q ->
    Progress.level q < Progress.level p ->
    Progress.is_solved p <> 0 -> Progress.is_solved q <> 0.

(** The user whose records a request can write: the one of the session of
    an answer, the one a registration creates. *)
Definition acts_for (r : request) : option string :=
  match r with
  | PostRegister id _ _ _ _ => Some id
  | PostAnswer (Some user) _ _ _ => Some (sid user)
  | _ => None
  end.

(** The levels [first], [first + 1], ... ([count] of them). *)
Fixpoint levels_from (first : Z) (count : nat) : list Z :=
  match count with
  | O => []
  | S count' => first :: levels_from (first + 1) count'
  end.

(** A database with 101 users, "user100" to "user200", who solved
    nothing. *)
Definition crowd : list request :=
  map (fun n =>
         PostRegister ("id" ++ number_toString (NInt n)) "$2b$12$" n
           (Some ("user" ++ number_toString (NInt n))) (Some "secret"))
      (levels_from 100 101).

Definition crowded_db : db := Eval vm_compute in run empty_db crowd.

(** ** The page script

    The part of the script of the page that decides which levels it shows
    as open and which level it asks the server for. *)

Module Me.
Record entry : Type := { level : Z; is_solved : Z; solved_at : option Z }.
(** The body of [GET /api/me] that the script keeps in [state.me]. *)
Record t : Type :=
  { user : session_user; highestSolved : Z; totalLevels : Z; progress : list entry }.
End Me.

(** What [res.json] of [GET /api/me] carries for [m]. *)
Definition me_json (m : Me.t) : value :=
  VObj [("user", user_json (sid (Me.user m)) (sname (Me.user m)));
        ("highestSolved", VNum (NInt (Me.highestSolved m)));
        ("totalLevels", VNum (NInt (Me.totalLevels m)));
        ("progress",
         VArr (map (fun p =>
                      VObj [("level", VNum (NInt (Me.level p)));
                            ("is_solved", VNum (NInt (Me.is_solved p)));
                            ("solved_at", opt_num (Me.solved_at p))])
                   (Me.progress m)))].

(** [state.me] after [refreshMe] in the session of [user] on [d]. *)
Definition me_of (user : session_user) (d : db) : Me.t :=
  {| Me.user := user;
     Me.highestSolved := highestSolved (select_prog d (sid user));
     Me.totalLevels := N_LEVELS;
     Me.progress :=
       map (fun p => {| Me.level := Progress.level p;
                        Me.is_solved := Progress.is_solved p;
                        Me.solved_at := Progress.solved_at p |})
           (select_prog d (sid user)) |}.

(** One [div] of [renderLevels]: its classes, its text and the level that
    a click on it loads, if it listens to clicks. *)
Record tile : Type :=
  { className : list string; textContent : string; onclick : option Z }.

(** The body of the loop of [renderLevels] for [i]. *)
Definition render_tile (me : Me.t) (i : Z) : tile :=
  let prog := find (fun p => Me.level p =? i) (Me.progress me) in
  let highestSolved := Me.highestSolved me in
  let unlocked := i <=? highestSolved + 1 in
  let solved :=
    match prog with
    | Some p => Me.is_solved p =? 1
    | None => false
    end in
  {| className :=
       ("level" :: (if unlocked then ["unlocked"] else [])
                   ++ (if solved then ["solved"] else []))%list;
     textContent := "Level " ++ number_toString (NInt i);
     onclick := if unlocked then Some i else None |}.

(** [renderLevels]: [for (let i = 1; i <= me.totalLevels; i++)]. *)
Definition renderLevels (me : Me.t) : list tile :=
  map (render_tile me) (levels_from 1 (Z.to_nat (Me.totalLevels me))).

(** In [submitAnswer], after a correct answer and [refreshMe]: the level
    that is loaded next, if one is. *)
Definition next_level (me : Me.t) (currentLevel : Z) : option Z :=
  let next := Z.min (Me.highestSolved me + 1) (Me.totalLevels me) in
  if (currentLevel <? next) && (next <=? Me.totalLevels me) then Some next else None.

(** [state.me.highestSolved + 1 || 1], the level loaded after a login. *)
Definition first_level (me : Me.t) : Z :=
  let n := Me.highestSolved me + 1 in
  if n =? 0 then 1 else n.

(** * Properties *)

(** ** Text *)

Lemma is_white_lower (c : ascii) : is_white (lower c) = is_white c.
Proof. destruct c as [[] [] [] [] [] [] [] []]; reflexivity. Qed.

Lemma lower_idempotent (c : ascii) : lower (lower c) = lower c.
Proof. destruct c as [[] [] [] [] [] [] [] []]; reflexivity. Qed.

Lemma toLowerCase_idempotent (s : string) :
  toLowerCase (toLowerCase s) = toLowerCase s.
Proof.
  induction s as [|c s IH]; simpl; [reflexivity|].
  now rewrite lower_idempotent, IH.
Qed.

Lemma toLowerCase_trimStart (s : string) :
  toLowerCase (trimStart s) = trimStart (toLowerCase s).
Proof.
  induction s as [|c s IH]; simpl; [reflexivity|].
  rewrite is_white_lower. destruct (is_white c); [exact IH | reflexivity].
Qed.

Lemma toLowerCase_trimEnd (s : string) :
  toLowerCase (trimEnd s) = trimEnd (toLowerCase s).
Proof.
  induction s as [|c s IH]; simpl; [reflexivity|].
  rewrite <- IH, is_white_lower.
  destruct (trimEnd s); simpl; [destruct (is_white c)|]; reflexivity.
Qed.

(** Trimming and lower-casing commute. *)
Lemma toLowerCase_trim (s : string) : toLowerCase (trim s) = trim (toLowerCase s).
Proof. unfold trim. now rewrite toLowerCase_trimEnd, toLowerCase_trimStart. Qed.







Lemma norm_string (s : string) : norm (VStr s) = Return (toLowerCase (trim s)).
Proof.
  unfold norm. simpl. destruct (String.eqb_spec s ""); subst; reflexivity.
Qed.


(** ** Case and white space, against their definitions by code units *)


















(** ** Lists of rows *)

Section OrderBy.
Context {A : Type} (leb : A -> A -> bool).

Lemma insert_sorted_perm (x : A) (l : list A) :
  Permutation (insert_sorted leb x l) (x :: l).
Proof.
  induction l as [|y l IH]; simpl; [reflexivity|].
  destruct (leb x y); [reflexivity|].
  rewrite IH. apply perm_swap.
Qed.

Lemma order_by_perm (l : list A) : Permutation (order_by leb l) l.
Proof.
  induction l as [|x l IH]; simpl; [reflexivity|].
  rewrite insert_sorted_perm. now constructor.
Qed.

Lemma order_by_In (x : A) (l : list A) : In x (order_by leb l) <-> In x l.
Proof.
  split; apply Permutation_in; [|symmetry]; apply order_by_perm.
Qed.

Lemma order_by_length (l : list A) : List.length (order_by leb l) = List.length l.
Proof. apply Permutation_length, order_by_perm. Qed.

Hypothesis leb_total : forall x y, leb x y = true \/ leb y x = true.
Hypothesis leb_trans : forall x y z, leb x y = true -> leb y z = true -> leb x z = true.

Lemma insert_sorted_sorted (x : A) (l : list A) :
  StronglySorted (fun a b => leb a b = true) l ->
  StronglySorted (fun a b => leb a b = true) (insert_sorted leb x l).
Proof.
  induction 1 as [|y l Hl IH Hy]; simpl.
  - repeat constructor.
  - destruct (leb x y) eqn:Hxy.
    + constructor; [now constructor|].
      constructor; [assumption|].
      eapply Forall_impl; [|exact Hy]. intros z Hz. now apply leb_trans with y.
    + constructor; [assumption|].
      apply (Permutation_Forall (Permutation_sym (insert_sorted_perm x l))).
      constructor; [|assumption].
      destruct (leb_total x y); congruence.
Qed.

Lemma order_by_sorted (l : list A) :
  StronglySorted (fun a b => leb a b = true) (order_by leb l).
Proof.
  induction l as [|x l IH]; simpl; [constructor|].
  now apply insert_sorted_sorted.
Qed.
End OrderBy.


(** Ordering by a key moves a row past rows of a smaller key only, so the
    first row of a given key stays the first. *)
Section FindByKey.
Context {A : Type} (key : A -> Z).

Lemma find_insert_sorted (z : Z) (x : A) (l : list A) :
  find (fun p => key p =? z) (insert_sorted (fun p q => key p <=? key q) x l)
  = if key x =? z then Some x else find (fun p => key p =? z) l.
Proof.
  induction l as [|y l IH]; simpl; [reflexivity|].
  destruct (key x <=? key y) eqn:Hxy; simpl; [reflexivity|].
  rewrite IH.
  destruct (key y =? z) eqn:Hy; [|reflexivity].
  destruct (key x =? z) eqn:Hx; [|reflexivity]. lia.
Qed.

Lemma find_order_by (z : Z) (l : list A) :
  find (fun p => key p =? z) (order_by (fun p q => key p <=? key q) l)
  = find (fun p => key p =? z) l.
Proof.
  induction l as [|x l IH]; simpl; [reflexivity|].
  now rewrite find_insert_sorted, IH.
Qed.
End FindByKey.

Lemma find_filter {A : Type} (P Q : A -> bool) (l : list A) :
  find P (filter Q l) = find (fun x => Q x && P x) l.
Proof.
  induction l as [|x l IH]; simpl; [reflexivity|].
  destruct (Q x); simpl; [destruct (P x)|]; auto.
Qed.

(** The row that [prog.find(p => p.level === n)] sees is the row of the
    table under the key of the user and the level. *)
Lemma find_select_prog (d : db) (uid : string) (n : Z) :
  find (fun p => Progress.level p =? n) (select_prog d uid) = select_already d uid n.
Proof.
  unfold select_prog, select_already.
  rewrite (find_order_by Progress.level), find_filter. reflexivity.
Qed.

Lemma has_key_true (uid : string) (n : Z) (p : Progress.row) :
  has_key uid n p = true <-> Progress.user_id p = uid /\ Progress.level p = n.
Proof.
  unfold has_key. rewrite andb_true_iff, String.eqb_eq, Z.eqb_eq. reflexivity.
Qed.

Lemma select_already_Some (d : db) (uid : string) (n : Z) (p : Progress.row) :
  select_already d uid n = Some p ->
  In p (progress d) /\ Progress.user_id p = uid /\ Progress.level p = n.
Proof.
  intros [Hin Hk]%find_some. now apply has_key_true in Hk.
Qed.

Lemma select_prog_In (d : db) (uid : string) (p : Progress.row) :
  In p (select_prog d uid) <-> In p (progress d) /\ Progress.user_id p = uid.
Proof.
  unfold select_prog. rewrite order_by_In, filter_In, String.eqb_eq. reflexivity.
Qed.

(** ** [highestSolved] *)

Lemma highestSolved_nonneg (prog : list Progress.row) : 0 <= highestSolved prog.
Proof.
  unfold highestSolved. induction prog as [|p prog IH]; simpl; [lia|].
  destruct (negb _); simpl; lia.
Qed.

Lemma highestSolved_ge (prog : list Progress.row) (p : Progress.row) :
  In p prog -> Progress.is_solved p <> 0 -> Progress.level p <= highestSolved prog.
Proof.
  unfold highestSolved. induction prog as [|q prog IH]; simpl; [tauto|].
  intros [->|Hin] Hp.
  - apply Z.eqb_neq in Hp. rewrite Hp. simpl. lia.
  - specialize (IH Hin Hp). destruct (negb _); simpl; lia.
Qed.

Lemma highestSolved_attained (prog : list Progress.row) :
  highestSolved prog = 0 \/
  exists p, In p prog /\ Progress.is_solved p <> 0
            /\ Progress.level p = highestSolved prog.
Proof.
  unfold highestSolved. induction prog as [|q prog IH]; simpl; [now left|].
  destruct (Progress.is_solved q =? 0) eqn:Hq; simpl.
  - destruct IH as [IH|(p & Hin & Hp & Hl)]; [now left|].
    right. exists p. auto.
  - apply Z.eqb_neq in Hq.
    destruct (Z.max_spec (Progress.level q)
                (fold_right Z.max 0
                   (map Progress.level
                      (filter (fun p => negb (Progress.is_solved p =? 0)) prog))))
      as [[_ ->]|[_ ->]].
    + destruct IH as [IH|(p & Hin & Hp & Hl)]; [now left|].
      right. exists p. auto.
    + right. exists q. auto.
Qed.

Lemma highestSolved_le (prog : list Progress.row) (b : Z) :
  0 <= b ->
  (forall p, In p prog -> Progress.is_solved p <> 0 -> Progress.level p <= b) ->
  highestSolved prog <= b.
Proof.
  intros Hb H. destruct (highestSolved_attained prog) as [->|(p & Hin & Hp & <-)]; auto.
Qed.

(** [highestSolved] grows along any change that keeps, for each solved row,
    a solved row of the same level. *)
Lemma highestSolved_mono (prog prog' : list Progress.row) :
  (forall p, In p prog -> Progress.is_solved p <> 0 ->
     exists p', In p' prog' /\ Progress.is_solved p' <> 0
                /\ Progress.level p' = Progress.level p) ->
  highestSolved prog <= highestSolved prog'.
Proof.
  intros H. apply highestSolved_le; [apply highestSolved_nonneg|].
  intros p Hin Hp. destruct (H p Hin Hp) as (p' & Hin' & Hp' & <-).
  now apply highestSolved_ge.
Qed.

(** A solved level is unlocked. *)
Lemma solved_unlocked (d : db) (uid : string) (n : Z) (p : Progress.row) :
  select_already d uid n = Some p -> Progress.is_solved p <> 0 -> unlocked d uid n.
Proof.
  intros (Hin & Hu & Hl)%select_already_Some Hp. unfold unlocked.
  assert (Progress.level p <= highestSolved (select_prog d uid)).
  { apply highestSolved_ge; [|assumption]. now apply select_prog_In. }
  lia.
Qed.

(** ** The levels *)

Lemma as_level_Some (level : number) (n : Z) :
  as_level level = Some n <-> level = NInt n /\ 1 <= n <= N_LEVELS.
Proof.
  unfold as_level. destruct level as [z|shown].
  - destruct (1 <=? z) eqn:H1; destruct (z <=? N_LEVELS) eqn:H2; simpl;
      split; try discriminate.
    + intros [= ->]. split; [reflexivity|lia].
    + now intros [[= ->] _].
    + intros [[= ->] ?]; lia.
    + intros [[= ->] ?]; lia.
    + intros [[= ->] ?]; lia.
  - split; [discriminate|]. now intros [? _].
Qed.

Lemma as_level_None (level : number) :
  as_level level = None <-> ~ exists n, level = NInt n /\ 1 <= n <= N_LEVELS.
Proof.
  split.
  - intros H (n & Hn). apply as_level_Some in Hn. congruence.
  - intros H. destruct (as_level level) as [n|] eqn:E; [|reflexivity].
    exfalso. apply H. exists n. now apply as_level_Some.
Qed.

Lemma level_at_valid (n : Z) :
  1 <= n <= N_LEVELS -> exists lv, level_at n = Return lv /\ Level.id lv = n.
Proof.
  unfold N_LEVELS. simpl. intros Hn.
  assert (n = 1 \/ n = 2 \/ n = 3 \/ n = 4 \/ n = 5 \/ n = 6 \/ n = 7 \/ n = 8
          \/ n = 9 \/ n = 10) as H by lia.
  repeat (destruct H as [->|H]; [eexists; split; reflexivity|]).
  subst. eexists; split; reflexivity.
Qed.

(** Every configured answer is canonical already, and none is empty. *)
Lemma answers_canonical (lv : Level.t) :
  In lv LEVELS ->
  norm (VStr (Level.answer lv)) = Return (Level.answer lv) /\ Level.answer lv <> "".
Proof.
  intros H. repeat (destruct H as [<-|H]; [split; [reflexivity|discriminate]|]).
  destruct H.
Qed.

Lemma level_at_In (n : Z) (lv : Level.t) : level_at n = Return lv -> In lv LEVELS.
Proof.
  unfold level_at. destruct (nth_error _ _) eqn:E; [|discriminate].
  intros [= <-]. eapply nth_error_In, E.
Qed.

Lemma check_answer_norm (n : Z) (lv : Level.t) (answer : value) :
  level_at n = Return lv ->
  check_answer n answer
  = a <- norm answer ;; Return (a =? Level.answer lv)%string.
Proof.
  intros H. unfold check_answer. rewrite H. simpl.
  destruct (answers_canonical lv (level_at_In _ _ H)) as [-> _].
  reflexivity.
Qed.

(** ** The handlers, case by case *)

Lemma db_eta (d : db) : {| users := users d; progress := progress d |} = d.
Proof. now destruct d. Qed.

Lemma find_map_stable {A : Type} (P : A -> bool) (f : A -> A) (l : list A) :
  (forall x, P (f x) = P x) -> find P (map f l) = option_map f (find P l).
Proof.
  intros H. induction l as [|x l IH]; simpl; [reflexivity|].
  rewrite H. destruct (P x); [reflexivity|exact IH].
Qed.

Lemma has_key_update (uid uid' : string) (n n' now : Z) (p : Progress.row) :
  has_key uid' n'
    (if has_key uid n p
     then {| Progress.user_id := Progress.user_id p; Progress.level := Progress.level p;
             Progress.is_solved := 1; Progress.solved_at := Some now |}
     else p)
  = has_key uid' n' p.
Proof. now destruct (has_key uid n p). Qed.

Lemma update_solved_absent (now : Z) (uid : string) (n : Z) (d : db) :
  select_already d uid n = None -> update_solved now uid n d = d.
Proof.
  unfold select_already, update_solved. destruct d as [us ps]. simpl.
  intros H. f_equal.
  induction ps as [|p ps IH]; simpl in *; [reflexivity|].
  destruct (has_key uid n p); [discriminate|]. f_equal. now apply IH.
Qed.

Lemma select_already_update (now : Z) (uid : string) (n : Z) (d : db) (p : Progress.row) :
  select_already d uid n = Some p ->
  select_already (update_solved now uid n d) uid n = Some (solved_row uid n now).
Proof.
  intros H. pose proof (select_already_Some _ _ _ _ H) as (_ & Hu & Hl).
  unfold select_already in *. simpl.
  rewrite find_map_stable by (intros; apply has_key_update).
  rewrite H. simpl.
  apply find_some in H as [_ ->]. unfold solved_row. now rewrite Hu, Hl.
Qed.

(** The [UPDATE] leaves the users and every record of another key alone. *)
Lemma select_already_update_other (now : Z) (uid uid' : string) (n n' : Z) (d : db) :
  (uid', n') <> (uid, n) ->
  select_already (update_solved now uid n d) uid' n' = select_already d uid' n'.
Proof.
  intros Hne. unfold select_already. simpl.
  rewrite find_map_stable by (intros; apply has_key_update).
  destruct (find (has_key uid' n') (progress d)) as [p|] eqn:E; [|reflexivity].
  simpl. apply find_some in E as [_ [Hu Hl]%has_key_true].
  destruct (has_key uid n p) eqn:K; [|reflexivity].
  apply has_key_true in K as [Hu' Hl']. congruence.
Qed.

Lemma update_solved_In (now : Z) (uid : string) (n : Z) (d : db) (q : Progress.row) :
  In q (progress (update_solved now uid n d)) ->
  (In q (progress d) /\ has_key uid n q = false) \/ q = solved_row uid n now.
Proof.
  simpl. intros (p & <- & Hp)%in_map_iff.
  destruct (has_key uid n p) eqn:K; [right|now left].
  apply has_key_true in K as [<- <-]. reflexivity.
Qed.

Lemma ltb_unlocked (d : db) (uid : string) (n : Z) :
  (highestSolved (select_prog d uid) + 1 <? n) = false <-> unlocked d uid n.
Proof. unfold unlocked. rewrite Z.ltb_ge. reflexivity. Qed.

Lemma ltb_locked (d : db) (uid : string) (n : Z) :
  (highestSolved (select_prog d uid) + 1 <? n) = true <-> ~ unlocked d uid n.
Proof. unfold unlocked. rewrite Z.ltb_lt. lia. Qed.

(** [POST /api/answer] once the level is valid and the answer has a
    canonical form. *)
Lemma post_answer_checked (user : session_user) (level : number) (n : Z)
    (answer : value) (correct : bool) (now : Z) (d : db) :
  as_level level = Some n ->
  check_answer n answer = Return correct ->
  post_answer (Some user) level answer now d =
    if highestSolved (select_prog d (sid user)) + 1 <? n then error 403 "locked"
    else if correct
         then match select_already d (sid user) n with
              | Some already =>
                  if Progress.is_solved already =? 0
                  then {| commits := [update_solved now (sid user) n d];
                          session := None; reply := verdict true |}
                  else send 200 (VObj [("correct", VBool true)])
              | None => {| commits := [update_solved now (sid user) n d];
                           session := None; reply := verdict true |}
              end
         else send 200 (VObj [("correct", VBool false)]).
Proof.
  intros Hl Hc. unfold post_answer, requireAuth. rewrite Hl, Hc.
  destruct correct; reflexivity.
Qed.

Lemma post_answer_final (sess : option session_user) (level : number)
    (answer : value) (now : Z) (d : db) :
  final d (post_answer sess level answer now d) = d \/
  exists user n p,
    sess = Some user /\ as_level level = Some n /\ unlocked d (sid user) n /\
    check_answer n answer = Return true /\
    select_already d (sid user) n = Some p /\ Progress.is_solved p = 0 /\
    final d (post_answer sess level answer now d) = update_solved now (sid user) n d.
Proof.
  destruct sess as [user|]; [|now left].
  destruct (as_level level) as [n|] eqn:Hl;
    [|left; unfold post_answer, requireAuth; now rewrite Hl].
  destruct (check_answer n answer) as [correct|e] eqn:Hc;
    [|left; unfold post_answer, requireAuth; now rewrite Hl, Hc].
  rewrite (post_answer_checked _ _ _ _ _ _ _ Hl Hc).
  destruct (_ <? n) eqn:Hg; [now left|]. apply ltb_unlocked in Hg.
  destruct correct; [|now left].
  destruct (select_already d (sid user) n) as [p|] eqn:Hp.
  - destruct (Progress.is_solved p =? 0) eqn:Hs; [|now left].
    right. exists user, n, p. apply Z.eqb_eq in Hs. repeat split; assumption.
  - left. unfold final. simpl. now apply update_solved_absent.
Qed.

(** ** Submitting an answer *)

(** C5.  A correct answer for an unlocked level whose record is not yet
    solved is answered with [correct = true]; the record of the user and
    the level then has [is_solved = 1] and [solved_at = now]; afterwards
    [highestSolved] is at least that level, and exactly that level when
    the level was [highestSolved + 1] before. *)
Theorem correct_answer_solves (user : session_user) (level : number) (n : Z)
    (answer : value) (now : Z) (d : db) (p : Progress.row) :
  as_level level = Some n ->
  unlocked d (sid user) n ->
  select_already d (sid user) n = Some p ->
  Progress.is_solved p = 0 ->
  check_answer n answer = Return true ->
  reply (post_answer (Some user) level answer now d) = verdict true /\
  select_already (final d (post_answer (Some user) level answer now d)) (sid user) n
    = Some (solved_row (sid user) n now) /\
  n <= highestSolved
         (select_prog (final d (post_answer (Some user) level answer now d)) (sid user)) /\
  (n = highestSolved (select_prog d (sid user)) + 1 ->
   highestSolved
     (select_prog (final d (post_answer (Some user) level answer now d)) (sid user)) = n).
Proof.
  intros Hl Hg Hp Hs Hc.
  rewrite (post_answer_checked _ _ _ _ _ _ _ Hl Hc).
  apply ltb_unlocked in Hg. rewrite Hg, Hp.
  apply Z.eqb_eq in Hs. rewrite Hs. unfold final. simpl.
  pose proof (select_already_update now _ _ _ _ Hp) as Hrow.
  assert (n <= highestSolved
                 (select_prog (update_solved now (sid user) n d) (sid user))) as Hge.
  { apply select_already_Some in Hrow as (Hin & _ & _).
    apply (highestSolved_ge _ (solved_row (sid user) n now)); [|discriminate].
    apply select_prog_In. now split. }
  repeat split; try assumption.
  intros Hnext. apply Z.le_antisymm; [|exact Hge].
  apply highestSolved_le; [pose proof (highestSolved_nonneg (select_prog d (sid user))); lia|].
  intros q [Hq Hu]%select_prog_In Hsolved.
  apply update_solved_In in Hq as [[Hq _]| ->]; [|simpl; lia].
  assert (Progress.level q <= highestSolved (select_prog d (sid user))).
  { apply highestSolved_ge; [|assumption]. apply select_prog_In. now split. }
  lia.
Qed.

Lemma correct_answer_solves_witness :
  reply (post_answer (Some amy) (NInt 1) (VStr " Echo ") 7 registered_db) = verdict true /\
  select_already
    (final registered_db (post_answer (Some amy) (NInt 1) (VStr " Echo ") 7 registered_db))
    "idD" 1 = Some (solved_row "idD" 1 7).
Proof.
  pose proof (correct_answer_solves amy (NInt 1) 1 (VStr " Echo ") 7 registered_db
                {| Progress.user_id := "idD"; Progress.level := 1;
                   Progress.is_solved := 0; Progress.solved_at := None |}) as H.
  destruct H as (H1 & H2 & _); try reflexivity.
  - now vm_compute.
  - split; [exact H1 | exact H2].
Defined.

(** C6.  [POST /api/answer] leaves the database as it is, except when the
    answer is correct, the level unlocked and its record not yet solved, and
    then the one [UPDATE] touches no record of another user or level; a
    correct answer for a solved level changes nothing and is answered with
    [correct = true]; an incorrect answer changes nothing and is answered
    with [correct = false]. *)
Theorem answer_frame (sess : option session_user) (level : number)
    (answer : value) (now : Z) (d : db) :
  (final d (post_answer sess level answer now d) = d \/
   exists user n p,
     sess = Some user /\ as_level level = Some n /\ unlocked d (sid user) n /\
     check_answer n answer = Return true /\
     select_already d (sid user) n = Some p /\ Progress.is_solved p = 0 /\
     final d (post_answer sess level answer now d) = update_solved now (sid user) n d /\
     users (update_solved now (sid user) n d) = users d /\
     forall uid' n', (uid', n') <> (sid user, n) ->
       select_already (update_solved now (sid user) n d) uid' n'
       = select_already d uid' n') /\
  (forall user n p,
     sess = Some user -> as_level level = Some n ->
     check_answer n answer = Return true ->
     select_already d (sid user) n = Some p -> Progress.is_solved p <> 0 ->
     final d (post_answer sess level answer now d) = d /\
     reply (post_answer sess level answer now d) = verdict true) /\
  (forall user n,
     sess = Some user -> as_level level = Some n ->
     check_answer n answer = Return false ->
     final d (post_answer sess level answer now d) = d /\
     (unlocked d (sid user) n ->
      reply (post_answer sess level answer now d) = verdict false)).
Proof.
  split; [|split].
  - destruct (post_answer_final sess level answer now d)
      as [H|(user & n & p & H1 & H2 & H3 & H4 & H5 & H6 & H7)]; [now left|].
    right. exists user, n, p. repeat split; try assumption.
    intros uid' n' Hne. now apply select_already_update_other.
  - intros user n p -> Hl Hc Hp Hs.
    rewrite (post_answer_checked _ _ _ _ _ _ _ Hl Hc).
    pose proof (solved_unlocked _ _ _ _ Hp Hs) as Hg.
    apply ltb_unlocked in Hg. rewrite Hg, Hp.
    apply Z.eqb_neq in Hs. rewrite Hs. now split.
  - intros user n -> Hl Hc.
    rewrite (post_answer_checked _ _ _ _ _ _ _ Hl Hc).
    destruct (_ <? n) eqn:Hg; (split; [reflexivity|]).
    + intros Hu. apply ltb_unlocked in Hu. congruence.
    + reflexivity.
Qed.

Lemma answer_frame_witness :
  (final played_db (post_answer (Some userB) (NInt 2) (VStr "rypti") 99 played_db)
   = played_db /\
   reply (post_answer (Some userB) (NInt 2) (VStr "rypti") 99 played_db) = verdict true) /\
  (final played_db (post_answer (Some userB) (NInt 4) (VStr "hunter") 99 played_db)
   = played_db /\
   reply (post_answer (Some userB) (NInt 4) (VStr "hunter") 99 played_db) = verdict false).
Proof.
  split.
  - destruct (answer_frame (Some userB) (NInt 2) (VStr "rypti") 99 played_db)
      as (_ & H & _).
    apply (H userB 2 (solved_row "idB" 2 4)); try reflexivity. discriminate.
  - destruct (answer_frame (Some userB) (NInt 4) (VStr "hunter") 99 played_db)
      as (_ & _ & H).
    destruct (H userB 4) as [H1 H2]; try reflexivity.
    split; [exact H1 | apply H2; now vm_compute].
Defined.




(** ** Opening a level *)

(** No prompt spells out its answer, in any casing. *)
Lemma prompts_hide_answers (lv : Level.t) :
  In lv LEVELS ->
  contains (Level.answer lv) (Level.prompt lv) = false /\
  contains (Level.answer lv) (toLowerCase (Level.prompt lv)) = false.
Proof.
  intros H. repeat (destruct H as [<-|H]; [split; vm_compute; reflexivity|]).
  destruct H.
Qed.

Lemma get_level_valid (user : session_user) (level : number) (n : Z) (d : db) :
  as_level level = Some n ->
  exists lv,
    level_at n = Return lv /\ Level.id lv = n /\
    get_level (Some user) level d =
      if highestSolved (select_prog d (sid user)) + 1 <? n then error 403 "locked"
      else send 200
             (VObj [("level", VNum (NInt n));
                    ("prompt", VStr (Level.prompt lv));
                    ("is_solved",
                     VBool match select_already d (sid user) n with
                           | Some p => Progress.is_solved p =? 1
                           | None => false
                           end)]).
Proof.
  intros Hl. pose proof Hl as [_ Hn]%as_level_Some.
  destruct (level_at_valid n Hn) as (lv & Hlv & Hid). exists lv.
  repeat split; try assumption.
  unfold get_level, requireAuth. rewrite Hl, Hlv, find_select_prog. reflexivity.
Qed.

(** C9.  For a valid level that the user may open, [GET /api/level/:level]
    answers with exactly the level, the prompt of that level and whether
    the user's record of the level is solved; the expected answer is no
    field of it and no part of the prompt.  For a locked level the answer
    is the [locked] error alone.  Either way nothing is written. *)
Theorem get_level_response (user : session_user) (level : number) (n : Z) (d : db) :
  as_level level = Some n ->
  final d (get_level (Some user) level d) = d /\
  (unlocked d (sid user) n ->
   exists lv,
     level_at n = Return lv /\ Level.id lv = n /\
     reply (get_level (Some user) level d)
     = Json 200
         (VObj [("level", VNum (NInt n));
                ("prompt", VStr (Level.prompt lv));
                ("is_solved",
                 VBool match select_already d (sid user) n with
                       | Some p => Progress.is_solved p =? 1
                       | None => false
                       end)]) /\
     contains (Level.answer lv) (Level.prompt lv) = false /\
     contains (Level.answer lv) (toLowerCase (Level.prompt lv)) = false) /\
  (~ unlocked d (sid user) n ->
   reply (get_level (Some user) level d) = locked).
Proof.
  intros Hl. destruct (get_level_valid user level n d Hl) as (lv & Hlv & Hid & E).
  rewrite E. split; [|split].
  - now destruct (_ <? n).
  - intros Hg. apply ltb_unlocked in Hg. rewrite Hg. exists lv.
    destruct (prompts_hide_answers lv (level_at_In _ _ Hlv)).
    repeat split; assumption.
  - intros Hg. apply ltb_locked in Hg. now rewrite Hg.
Qed.

Lemma get_level_response_witness :
  reply (get_level (Some userA) (NInt 3) played_db)
  = Json 200 (VObj [("level", VNum (NInt 3));
                    ("prompt", VStr "An anagram of “LISTEN” that is a verb.");
                    ("is_solved", VBool true)]) /\
  reply (get_level (Some amy) (NInt 4) played_db) = locked.
Proof.
  split.
  - destruct (get_level_response userA (NInt 3) 3 played_db eq_refl) as (_ & H & _).
    destruct H as (lv & Hlv & _ & H & _); [now vm_compute|].
    injection Hlv as <-. exact H.
  - destruct (get_level_response amy (NInt 4) 4 played_db eq_refl) as (_ & _ & H).
    apply H. now vm_compute.
Defined.

(** ** Registration *)

Lemma seed_from_Return (i : Z) (count : nat) (uid : string) (d d' : db) :
  seed_from i count uid d = Return d' ->
  users d' = users d /\ progress d' = (progress d ++ seeded uid i count)%list.
Proof.
  revert i d. induction count as [|count IH]; simpl; intros i d.
  - intros [= <-]. now rewrite app_nil_r.
  - unfold insert_progress. destruct (existsb _ _); [discriminate|]. simpl.
    intros [Hu Hp]%IH. simpl in *. now rewrite Hu, Hp, <- app_assoc.
Qed.

(** Seeding succeeds when the user has no record at or above the first
    level it writes. *)
Lemma seed_from_fresh (i : Z) (count : nat) (uid : string) (d : db) :
  (forall p, In p (progress d) -> Progress.user_id p = uid -> Progress.level p < i) ->
  seed_from i count uid d
  = Return {| users := users d; progress := (progress d ++ seeded uid i count)%list |}.
Proof.
  revert i d. induction count as [|count IH]; simpl; intros i d Hfresh.
  - now rewrite app_nil_r, db_eta.
  - unfold insert_progress.
    destruct (existsb (has_key uid i) (progress d)) eqn:E.
    + apply existsb_exists in E as (p & Hin & [Hu Hl]%has_key_true).
      specialize (Hfresh p Hin Hu). lia.
    + simpl. rewrite IH; simpl.
      * now rewrite <- app_assoc.
      * intros p [Hin|[<-|[]]]%in_app_or Hu; simpl; [|lia].
        specialize (Hfresh p Hin Hu). lia.
Qed.

Lemma seeded_In (uid : string) (i : Z) (count : nat) (p : Progress.row) :
  In p (seeded uid i count) <->
  p = {| Progress.user_id := uid; Progress.level := Progress.level p;
         Progress.is_solved := 0; Progress.solved_at := None |}
  /\ i <= Progress.level p < i + Z.of_nat count.
Proof.
  revert i. induction count as [|count IH]; intros i; simpl.
  - split; [tauto|lia].
  - rewrite IH. split.
    + intros [<-|[H ?]]; simpl; [split; [reflexivity|lia]|]. split; [exact H|lia].
    + intros [H ?]. destruct (Z.eq_dec (Progress.level p) i) as [<-|Hne].
      * left. now symmetry.
      * right. split; [exact H|lia].
Qed.

Lemma insert_user_Return (r : User.row) (d d1 : db) :
  insert_user r d = Return d1 ->
  d1 = {| users := (users d ++ [r])%list; progress := progress d |} /\
  (forall u, In u (users d) -> User.username u <> User.username r) /\
  (forall u, In u (users d) -> User.id u <> User.id r).
Proof.
  unfold insert_user.
  destruct (existsb _ _) eqn:E1; [discriminate|].
  destruct (existsb (fun u => (User.id u =? User.id r)%string) _) eqn:E2; [discriminate|].
  intros [= <-]. split; [reflexivity|]. split; intros u Hu Heq.
  - assert (existsb (fun u => (User.username u =? User.username r)%string) (users d) = true);
      [|congruence].
    apply existsb_exists. exists u. split; [assumption|now apply String.eqb_eq].
  - assert (existsb (fun u => (User.id u =? User.id r)%string) (users d) = true);
      [|congruence].
    apply existsb_exists. exists u. split; [assumption|now apply String.eqb_eq].
Qed.

(** What [POST /api/register] leaves behind: nothing, or the user row, or
    the user row and the seeded records. *)
Lemma post_register_final (id hash : string) (now : Z)
    (username password : option string) (d : db) :
  final d (post_register id hash now username password d) = d \/
  exists name d1,
    username = Some name /\
    insert_user {| User.id := id; User.username := name;
                   User.password_hash := hash; User.created_at := now |} d = Return d1 /\
    ((exists e, transaction (seed id) d1 = Throw e /\
                final d (post_register id hash now username password d) = d1) \/
     (transaction (seed id) d1
        = Return (final d (post_register id hash now username password d)) /\
      reply (post_register id hash now username password d)
        = Json 200 (VObj [("ok", VBool true); ("user", user_json id name)]))).
Proof.
  unfold post_register.
  destruct username as [name|]; [|now left].
  destruct password as [pw|]; [|now left].
  destruct (_ || _); [now left|].
  destruct (_ || _); [now left|].
  destruct (_ <? _)%nat; [now left|].
  destruct (insert_user _ d) as [d1|e] eqn:E1; [|now left].
  right. exists name, d1. split; [reflexivity|]. split; [exact E1|].
  destruct (transaction (seed id) d1) as [d2|e] eqn:E2.
  - right. now split.
  - left. exists e. now split.
Qed.

Lemma post_register_progress (id hash : string) (now : Z)
    (username password : option string) (d : db) :
  exists fresh,
    progress (final d (post_register id hash now username password d))
    = (progress d ++ fresh)%list /\
    Forall (fun p => Progress.is_solved p = 0 /\ Progress.solved_at p = None) fresh.
Proof.
  destruct (post_register_final id hash now username password d)
    as [->|(name & d1 & _ & [-> _]%insert_user_Return & [(e & _ & ->)|[H _]])].
  - exists []. now rewrite app_nil_r.
  - exists []. simpl. now rewrite app_nil_r.
  - apply seed_from_Return in H as [_ ->]. cbn [progress]. eexists.
    split; [reflexivity|].
    apply Forall_forall. intros p [E _]%seeded_In. rewrite E. now split.
Qed.

(** ** Solve state is one-way *)

Lemma keeps_solved_refl (d : db) : keeps_solved d d.
Proof. intros p Hin Hp. exists p. auto. Qed.

Lemma keeps_solved_trans (d1 d2 d3 : db) :
  keeps_solved d1 d2 -> keeps_solved d2 d3 -> keeps_solved d1 d3.
Proof.
  intros H12 H23 p Hin Hp.
  destruct (H12 p Hin Hp) as (p' & Hin' & Hp' & Hu & Hl).
  destruct (H23 p' Hin' Hp') as (p'' & Hin'' & Hp'' & Hu' & Hl').
  exists p''. repeat split; congruence.
Qed.

Lemma keeps_solved_update (now : Z) (uid : string) (n : Z) (d : db) :
  keeps_solved d (update_solved now uid n d).
Proof.
  intros p Hin Hp. simpl.
  eexists. split; [apply in_map; exact Hin|].
  destruct (has_key uid n p); simpl; auto. repeat split. discriminate.
Qed.

Lemma keeps_solved_app (d d' : db) (fresh : list Progress.row) :
  progress d' = (progress d ++ fresh)%list -> keeps_solved d d'.
Proof.
  intros E p Hin Hp. exists p. rewrite E. repeat split; auto.
  apply in_or_app. now left.
Qed.

Lemma read_only_final (d : db) (status : Z) (body : value) :
  final d (send status body) = d.
Proof. reflexivity. Qed.

Lemma post_login_final (username password : option string) (pw_ok : bool) (d : db) :
  final d (post_login username password pw_ok d) = d.
Proof.
  unfold post_login. destruct username, password; try reflexivity.
  destruct (_ || _); [reflexivity|].
  destruct (select_user d _); [destruct pw_ok|]; reflexivity.
Qed.

Lemma get_me_final (sess : option session_user) (d : db) : final d (get_me sess d) = d.
Proof. unfold get_me. now destruct (requireAuth sess). Qed.

Lemma get_level_final (sess : option session_user) (n : number) (d : db) :
  final d (get_level sess n d) = d.
Proof.
  unfold get_level. destruct (requireAuth sess); [|reflexivity].
  destruct (as_level n); [|reflexivity].
  destruct (_ <? _); [reflexivity|]. now destruct (level_at _).
Qed.

Lemma get_leaderboard_final (d : db) : final d (get_leaderboard d) = d.
Proof. reflexivity. Qed.

(** One request leaves the database as it is, or registers a user, or marks
    one record solved that was not. *)
Lemma step_cases (d : db) (r : request) :
  step d r = d \/
  (exists id hash now name d1,
     insert_user {| User.id := id; User.username := name;
                    User.password_hash := hash; User.created_at := now |} d = Return d1 /\
     ((exists e, seed id d1 = Throw e /\ step d r = d1) \/
      seed id d1 = Return (step d r))) \/
  (exists now uid n p,
     select_already d uid n = Some p /\ Progress.is_solved p = 0 /\
     step d r = update_solved now uid n d).
Proof.
  unfold step.
  destruct r as [id hash now username password|username password pw_ok|sess|sess n
                |sess level answer now|]; simpl.
  - destruct (post_register_final id hash now username password d)
      as [H|(name & d1 & _ & H1 & [(e & He & H2)|[H2 _]])]; [now left| |];
      right; left; exists id, hash, now, name, d1; eauto.
  - left. apply post_login_final.
  - left. apply get_me_final.
  - left. apply get_level_final.
  - destruct (post_answer_final sess level answer now d)
      as [H|(user & n & p & _ & _ & _ & _ & H1 & H2 & H3)]; [now left|].
    right; right. exists now, (sid user), n, p. auto.
  - now left.
Qed.

Lemma find_app_Some {A : Type} (P : A -> bool) (l l' : list A) (x : A) :
  find P l = Some x -> find P (l ++ l') = Some x.
Proof.
  induction l as [|y l IH]; simpl; [discriminate|]. now destruct (P y).
Qed.

Lemma step_keeps_solved (d : db) (r : request) : keeps_solved d (step d r).
Proof.
  destruct (step_cases d r)
    as [->|[(id & hash & now & name & d1 & [-> _]%insert_user_Return
               & [(e & _ & ->)|H])
           |(now & uid & n & p & _ & _ & ->)]].
  - apply keeps_solved_refl.
  - apply keeps_solved_app with []. simpl. now rewrite app_nil_r.
  - apply seed_from_Return in H as [_ H]. eapply keeps_solved_app, H.
  - apply keeps_solved_update.
Qed.

Lemma run_keeps_solved (rs : list request) (d : db) : keeps_solved d (run d rs).
Proof.
  revert d. induction rs as [|r rs IH]; intros d; simpl.
  - apply keeps_solved_refl.
  - eapply keeps_solved_trans; [apply step_keeps_solved|apply IH].
Qed.

Lemma keeps_solved_highest (d d' : db) (uid : string) :
  keeps_solved d d' ->
  highestSolved (select_prog d uid) <= highestSolved (select_prog d' uid).
Proof.
  intros H. apply highestSolved_mono. intros p [Hin Hu]%select_prog_In Hp.
  destruct (H p Hin Hp) as (p' & Hin' & Hp' & Hu' & Hl').
  exists p'. repeat split; try assumption.
  apply select_prog_In. split; congruence.
Qed.

(** A solved record is never written again. *)
Lemma step_frozen (d : db) (r : request) (uid : string) (n : Z) (p : Progress.row) :
  select_already d uid n = Some p -> Progress.is_solved p <> 0 ->
  select_already (step d r) uid n = Some p.
Proof.
  intros Hp Hs.
  destruct (step_cases d r)
    as [->|[(id & hash & now & name & d1 & [-> _]%insert_user_Return
               & [(e & _ & ->)|H])
           |(now & uid' & n' & p' & Hp' & Hs' & ->)]]; try assumption.
  - apply seed_from_Return in H as [_ H]. unfold select_already. rewrite H.
    now apply find_app_Some.
  - rewrite select_already_update_other; [assumption|].
    intros [= -> ->]. congruence.
Qed.

Lemma run_frozen (rs : list request) (d : db) (uid : string) (n : Z) (p : Progress.row) :
  select_already d uid n = Some p -> Progress.is_solved p <> 0 ->
  select_already (run d rs) uid n = Some p.
Proof.
  revert d. induction rs as [|r rs IH]; intros d Hp Hs; simpl; [assumption|].
  apply IH; [|assumption]. now apply step_frozen.
Qed.

(** C8.  Along any sequence of requests [highestSolved] of every user only
    grows, and a solved record stays as it is, solved and with its
    [solved_at]; a request other than an answer leaves every progress record
    as it is: registration only appends unsolved records, and the reading
    requests write nothing. *)
Theorem solve_state_one_way (d : db) (rs : list request) :
  (forall uid,
     highestSolved (select_prog d uid) <= highestSolved (select_prog (run d rs) uid)) /\
  (forall uid n p,
     select_already d uid n = Some p -> Progress.is_solved p <> 0 ->
     select_already (run d rs) uid n = Some p) /\
  (forall r,
     match r with
     | PostAnswer _ _ _ _ => True
     | PostRegister _ _ _ _ _ =>
         exists fresh,
           progress (step d r) = (progress d ++ fresh)%list /\
           Forall (fun p => Progress.is_solved p = 0 /\ Progress.solved_at p = None) fresh
     | _ => step d r = d
     end).
Proof.
  split; [|split].
  - intros uid. apply keeps_solved_highest, run_keeps_solved.
  - intros uid n p. apply run_frozen.
  - intros [id hash now username password|username password pw_ok|sess|sess n
           |sess level answer now|]; unfold step; simpl; try exact I.
    + apply post_register_progress.
    + apply post_login_final.
    + apply get_me_final.
    + apply get_level_final.
    + reflexivity.
Qed.

Lemma solve_state_one_way_witness :
  select_already
    (run played_db
       [ PostAnswer (Some userA) (NInt 3) (VStr "wrong") 20;
         PostAnswer (Some userA) (NInt 3) (VStr "silent") 21;
         GetLevel (Some userA) (NInt 4);
         PostRegister "idE" "$2b$12$E" 22 (Some "eve") (Some "secretE");
         GetLeaderboard ])
    "idA" 3
  = Some (solved_row "idA" 3 10).
Proof.
  destruct (solve_state_one_way played_db
              [ PostAnswer (Some userA) (NInt 3) (VStr "wrong") 20;
                PostAnswer (Some userA) (NInt 3) (VStr "silent") 21;
                GetLevel (Some userA) (NInt 4);
                PostRegister "idE" "$2b$12$E" 22 (Some "eve") (Some "secretE");
                GetLeaderboard ]) as (_ & H & _).
  apply H; [reflexivity|discriminate].
Defined.

(** ** The shape of the database *)

Lemma wf_empty : wf empty_db.
Proof. split; simpl; try constructor; tauto. Qed.

Lemma seeded_keys (uid : string) (i : Z) (count : nat) :
  NoDup (map key_of (seeded uid i count)).
Proof.
  revert i. induction count as [|count IH]; intros i; simpl; constructor; [|apply IH].
  intros (p & Hk & [_ Hl]%seeded_In)%in_map_iff.
  unfold key_of in Hk. simpl in Hk. injection Hk as _ Hk. lia.
Qed.

Lemma map_key_update (now : Z) (uid : string) (n : Z) (d : db) :
  map key_of (progress (update_solved now uid n d)) = map key_of (progress d).
Proof.
  simpl. rewrite map_map. apply map_ext. intros p. now destruct (has_key uid n p).
Qed.

Lemma update_solved_origin (now : Z) (uid : string) (n : Z) (d : db) (q : Progress.row) :
  In q (progress (update_solved now uid n d)) ->
  exists p, In p (progress d) /\ key_of q = key_of p /\
            (q = p \/ q = solved_row uid n now).
Proof.
  simpl. intros (p & <- & Hp)%in_map_iff. exists p. split; [assumption|].
  destruct (has_key uid n p) eqn:K; [|now split; [|left]].
  split; [reflexivity|]. right. apply has_key_true in K as [<- <-]. reflexivity.
Qed.

Lemma wf_update (now : Z) (uid : string) (n : Z) (d : db) :
  wf d -> wf (update_solved now uid n d).
Proof.
  intros [Hids Hnames Hkeys Howner Hstamp Hrange Hseeded].
  split; try assumption.
  - now rewrite map_key_update.
  - intros q (p & Hp & [= Hu _] & _)%update_solved_origin.
    rewrite Hu. now apply Howner.
  - intros q (p & Hp & _ & [->| ->])%update_solved_origin; [now apply Hstamp|].
    right. split; [reflexivity|now exists now].
  - intros q (p & Hp & [= _ Hl] & _)%update_solved_origin.
    rewrite Hl. now apply Hrange.
  - intros u k Hu Hk. destruct (Hseeded u k Hu Hk) as (p & Hp & Hkey).
    assert (In (User.id u, k) (map key_of (progress (update_solved now uid n d))))
      as (q & Hq & Hin)%in_map_iff.
    { rewrite map_key_update, <- Hkey. now apply in_map. }
    now exists q.
Qed.

Lemma wf_register (id hash : string) (now : Z) (name : string) (d d1 : db) :
  wf d ->
  insert_user {| User.id := id; User.username := name;
                 User.password_hash := hash; User.created_at := now |} d = Return d1 ->
  seed id d1
  = Return {| users := users d1;
              progress := (progress d ++ seeded id 1 (List.length LEVELS))%list |} /\
  wf {| users := users d1;
        progress := (progress d ++ seeded id 1 (List.length LEVELS))%list |}.
Proof.
  intros [Hids Hnames Hkeys Howner Hstamp Hrange Hseeded]
         (-> & Hname & Hid)%insert_user_Return.
  simpl in Hname, Hid.
  assert (forall p, In p (progress d) -> Progress.user_id p <> id) as Hfresh.
  { intros p Hp Heq. apply Howner in Hp as (u & Hu & Hin)%in_map_iff.
    apply (Hid u Hin). congruence. }
  split.
  - unfold seed. rewrite seed_from_fresh; [reflexivity|].
    simpl. intros p Hp Hu. now destruct (Hfresh p Hp).
  - split; cbn [users progress].
    + rewrite map_app. apply NoDup_app; [assumption|repeat constructor; tauto|].
      intros i (u & Hi & Hu)%in_map_iff [Hi'|[]]. simpl in Hi'.
      apply (Hid u Hu). congruence.
    + rewrite map_app. apply NoDup_app; [assumption|repeat constructor; tauto|].
      intros i (u & Hi & Hu)%in_map_iff [Hi'|[]]. simpl in Hi'.
      apply (Hname u Hu). congruence.
    + rewrite map_app. apply NoDup_app; [assumption|apply seeded_keys|].
      intros k (p & <- & Hp)%in_map_iff (q & Hk & [Hq _]%seeded_In)%in_map_iff.
      rewrite Hq in Hk. injection Hk as Hk _. now apply (Hfresh p).
    + intros p [Hp|[Hp _]%seeded_In]%in_app_or; rewrite map_app; apply in_or_app.
      * left. now apply Howner.
      * right. rewrite Hp. now left.
    + intros p [Hp|[Hp _]%seeded_In]%in_app_or; [now apply Hstamp|].
      left. rewrite Hp. now split.
    + intros p [Hp|[_ Hp]%seeded_In]%in_app_or; [now apply Hrange|].
      unfold N_LEVELS. lia.
    + intros u n [Hu|[<-|[]]]%in_app_or Hn.
      * destruct (Hseeded u n Hu Hn) as (p & Hp & Hk).
        exists p. split; [apply in_or_app; now left|assumption].
      * exists {| Progress.user_id := id; Progress.level := n;
                  Progress.is_solved := 0; Progress.solved_at := None |}.
        split; [|reflexivity]. apply in_or_app. right. apply seeded_In.
        split; [reflexivity|]. unfold N_LEVELS in Hn. simpl Progress.level. lia.
Qed.

Lemma step_wf (d : db) (r : request) : wf d -> wf (step d r).
Proof.
  intros Hwf.
  destruct (step_cases d r)
    as [->|[(id & hash & now & name & d1 & Hins & Hseed)
           |(now & uid & n & p & _ & _ & ->)]]; [assumption| |now apply wf_update].
  destruct (wf_register id hash now name d d1 Hwf Hins) as [E Hwf'].
  destruct Hseed as [(e & He & _)|Hseed]; [congruence|].
  rewrite E in Hseed. now injection Hseed as <-.
Qed.

Lemma run_wf (rs : list request) (d : db) : wf d -> wf (run d rs).
Proof.
  revert d. induction rs as [|r rs IH]; intros d Hwf; simpl; [assumption|].
  now apply IH, step_wf.
Qed.

(** Every database that the server reaches has the shape [wf]. *)
Lemma reachable_wf (d : db) : reachable d -> wf d.
Proof. intros [rs ->]. apply run_wf, wf_empty. Qed.

Lemma wf_key_unique (d : db) (p q : Progress.row) :
  wf d -> In p (progress d) -> In q (progress d) -> key_of p = key_of q -> p = q.
Proof.
  intros [_ _ Hkeys _ _ _ _]. revert Hkeys.
  induction (progress d) as [|x l IH]; simpl; [tauto|].
  intros [Hx Hl]%NoDup_cons_iff [->|Hp] [->|Hq] Hk; auto.
  - destruct Hx. rewrite Hk. now apply in_map.
  - destruct Hx. rewrite <- Hk. now apply in_map.
Qed.

(** ** The order of the leaderboard *)

Lemma ascii_compare_N (a b : ascii) :
  Ascii.compare a b = (N_of_ascii a ?= N_of_ascii b)%N.
Proof. reflexivity. Qed.

Lemma string_compare_Lt_trans (x y z : string) :
  String.compare x y = Lt -> String.compare y z = Lt -> String.compare x z = Lt.
Proof.
  revert y z. induction x as [|a x IH]; intros [|b y] [|e z]; simpl; try congruence.
  rewrite !ascii_compare_N.
  destruct (N.compare_spec (N_of_ascii a) (N_of_ascii b)) as [Hab|Hab|Hab];
    destruct (N.compare_spec (N_of_ascii b) (N_of_ascii e)) as [Hbe|Hbe|Hbe];
    intros H1 H2; try discriminate.
  - rewrite Hab, Hbe, N.compare_refl. now apply IH with y.
  - now rewrite (proj2 (N.compare_lt_iff _ _)) by lia.
  - now rewrite (proj2 (N.compare_lt_iff _ _)) by lia.
  - now rewrite (proj2 (N.compare_lt_iff _ _)) by lia.
Qed.

Lemma string_compare_refl (x : string) : String.compare x x = Eq.
Proof.
  induction x as [|a x IH]; simpl; [reflexivity|].
  now rewrite ascii_compare_N, N.compare_refl.
Qed.

Lemma string_leb_cases (x y : string) :
  String.leb x y = true <-> String.compare x y = Lt \/ x = y.
Proof.
  unfold String.leb. split.
  - destruct (String.compare x y) eqn:E; try discriminate; [|now left].
    right. now apply String.compare_eq_iff.
  - intros [->| ->]; [reflexivity|]. now rewrite string_compare_refl.
Qed.

Lemma string_leb_trans (x y z : string) :
  String.leb x y = true -> String.leb y z = true -> String.leb x z = true.
Proof.
  rewrite !string_leb_cases. intros [H1| ->] [H2| ->]; auto.
  left. now apply string_compare_Lt_trans with y.
Qed.

Lemma string_leb_refl (x : string) : String.leb x x = true.
Proof. apply string_leb_cases. now right. Qed.

Lemma earlier_nulls_last (a b : option Z) : earlier a b <-> nulls_last a b = Lt.
Proof.
  destruct a as [s|], b as [t|]; simpl.
  - symmetry. apply Z.compare_lt_iff.
  - now split.
  - split; [tauto|discriminate].
  - split; [tauto|discriminate].
Qed.

Lemma nulls_last_Eq (a b : option Z) : nulls_last a b = Eq <-> a = b.
Proof.
  destruct a as [s|], b as [t|]; simpl; try (split; discriminate || reflexivity).
  rewrite Z.compare_eq_iff. split; congruence.
Qed.

Lemma nulls_last_antisym (a b : option Z) : nulls_last b a = CompOpp (nulls_last a b).
Proof.
  destruct a as [s|], b as [t|]; simpl; try reflexivity. apply Z.compare_antisym.
Qed.

(** The comparator of [ORDER BY] is the ranking of the specification. *)
Lemma board_leb_ranks (a b : Board.row) : board_leb a b = true <-> ranks_before a b.
Proof.
  unfold board_leb, ranks_before. rewrite earlier_nulls_last.
  destruct (Z.compare_spec (Board.solved_levels b) (Board.solved_levels a)) as [E|E|E].
  - destruct (nulls_last (Board.tiebreak_ts a) (Board.tiebreak_ts b)) eqn:T.
    + apply nulls_last_Eq in T. split.
      * intros H. right. split; [congruence|]. right. now split.
      * intros [?|[_ [?|[_ ?]]]]; [lia|discriminate|assumption].
    + split; [|reflexivity]. intros _. right. split; [congruence|]. now left.
    + split; [discriminate|].
      intros [?|[_ [?|[T' _]]]]; [lia|discriminate|].
      apply nulls_last_Eq in T'. congruence.
  - split; [now left|reflexivity].
  - split; [discriminate|]. intros [?|[? _]]; lia.
Qed.

Lemma board_leb_total (a b : Board.row) : board_leb a b = true \/ board_leb b a = true.
Proof.
  unfold board_leb.
  rewrite (Z.compare_antisym (Board.solved_levels b) (Board.solved_levels a)).
  rewrite (nulls_last_antisym (Board.tiebreak_ts a) (Board.tiebreak_ts b)).
  destruct (Board.solved_levels b ?= Board.solved_levels a); simpl; auto.
  destruct (nulls_last _ _); simpl; auto. apply String.leb_total.
Qed.

Lemma nulls_last_Lt_trans (a b c : option Z) :
  nulls_last a b = Lt -> nulls_last b c = Lt -> nulls_last a c = Lt.
Proof.
  destruct a, b, c; simpl; try congruence. rewrite !Z.compare_lt_iff. lia.
Qed.

Lemma board_leb_trans (a b c : Board.row) :
  board_leb a b = true -> board_leb b c = true -> board_leb a c = true.
Proof.
  rewrite !board_leb_ranks. unfold ranks_before. rewrite !earlier_nulls_last.
  intros [H1|[E1 H1]] [H2|[E2 H2]]; try (left; lia).
  right. split; [congruence|].
  destruct H1 as [H1|[T1 H1]], H2 as [H2|[T2 H2]].
  - left. now apply nulls_last_Lt_trans with (Board.tiebreak_ts b).
  - left. congruence.
  - left. congruence.
  - right. split; [congruence|]. now apply string_leb_trans with (Board.username b).
Qed.

(** Two rows that rank before each other are one row: the ranking is a
    total order. *)
Lemma board_leb_antisym (a b : Board.row) :
  board_leb a b = true -> board_leb b a = true -> a = b.
Proof.
  rewrite !board_leb_ranks. unfold ranks_before. rewrite !earlier_nulls_last.
  intros [H1|[E1 H1]] [H2|[E2 H2]]; try lia.
  destruct H1 as [H1|[T1 H1]], H2 as [H2|[T2 H2]].
  - rewrite nulls_last_antisym, H1 in H2. discriminate.
  - rewrite T2 in H1. assert (nulls_last (Board.tiebreak_ts a) (Board.tiebreak_ts a) = Eq)
      by now apply nulls_last_Eq. congruence.
  - rewrite T1 in H2. assert (nulls_last (Board.tiebreak_ts b) (Board.tiebreak_ts b) = Eq)
      by now apply nulls_last_Eq. congruence.
  - pose proof (String.leb_antisym _ _ H1 H2).
    destruct a, b; simpl in *; congruence.
Qed.

(** A sorted arrangement of given rows is unique under a total order, so
    the rows come out in one order whatever way the database sorts. *)
Lemma sorted_unique {A : Type} (R : A -> A -> Prop) (l l' : list A) :
  (forall x y, R x y -> R y x -> x = y) ->
  StronglySorted R l -> StronglySorted R l' -> Permutation l l' -> l = l'.
Proof.
  intros Hanti Hl. revert l'. induction Hl as [|x l Hl IH Hx]; intros l' Hl' Hperm.
  - now apply Permutation_nil in Hperm.
  - destruct Hl' as [|y l' Hl' Hy].
    + symmetry in Hperm. now apply Permutation_nil in Hperm.
    + assert (x = y) as <-.
      { pose proof (Permutation_in y (Permutation_sym Hperm) (or_introl eq_refl)) as [H|H];
          [assumption|].
        pose proof (Permutation_in x Hperm (or_introl eq_refl)) as [H'|H'];
          [now symmetry|].
        rewrite Forall_forall in Hx, Hy. apply Hanti; auto. }
      f_equal. apply IH; [assumption|]. now apply Permutation_cons_inv in Hperm.
Qed.

(** ** The aggregates of the leaderboard *)

Lemma MAX_None (vals : list (option Z)) :
  MAX vals = None -> forall v, In v vals -> v = None.
Proof.
  induction vals as [|[a|] vals IH]; simpl; [tauto| |].
  - destruct (MAX vals); discriminate.
  - intros H v [<-|Hv]; auto.
Qed.

Lemma MAX_Some (vals : list (option Z)) (m : Z) :
  MAX vals = Some m -> In (Some m) vals /\ forall z, In (Some z) vals -> z <= m.
Proof.
  revert m. induction vals as [|[a|] vals IH]; simpl; intros m; [discriminate| |].
  - destruct (MAX vals) as [b|] eqn:E.
    + intros [= <-]. destruct (IH b eq_refl) as [Hin Hle]. split.
      * destruct (Z.max_spec a b) as [[_ ->]|[_ ->]]; auto.
      * intros z [[= ->]|Hz]; [lia|]. specialize (Hle z Hz). lia.
    + intros [= <-]. split; [now left|].
      intros z [[= ->]|Hz]; [lia|]. now apply (MAX_None _ E) in Hz.
  - intros [Hin Hle]%IH. split; [now right|].
    intros z [Hz|Hz]; [discriminate|auto].
Qed.

Lemma MIN_all_None (vals : list (option Z)) :
  (forall v, In v vals -> v = None) -> MIN vals = None.
Proof.
  induction vals as [|[a|] vals IH]; simpl; intros H; [reflexivity| |].
  - now specialize (H (Some a) (or_introl eq_refl)).
  - apply IH. auto.
Qed.



Lemma MAX_filter {A : Type} (c : A -> bool) (f : A -> Z) (l : list A) :
  MAX (map (fun p => if c p then Some (f p) else None) l)
  = MAX (map (fun p => Some (f p)) (filter c l)).
Proof.
  induction l as [|x l IH]; simpl; [reflexivity|].
  destruct (c x); simpl; now rewrite IH.
Qed.

Lemma filter_filter_andb {A : Type} (f g : A -> bool) (l : list A) :
  filter g (filter f l) = filter (fun x => f x && g x) l.
Proof.
  induction l as [|x l IH]; simpl; [reflexivity|].
  destruct (f x); simpl; [destruct (g x)|]; now rewrite IH.
Qed.

(** The level of the subquery is the [solved_levels] of the row. *)
Lemma max_solved_level_row (d : db) (u : User.row) :
  max_solved_level d u = Board.solved_levels (board_row d u).
Proof.
  unfold max_solved_level, board_row, joined. simpl.
  now rewrite MAX_filter, filter_filter_andb.
Qed.

Lemma joined_In (d : db) (u : User.row) (p : Progress.row) :
  In p (joined d u) <-> In p (progress d) /\ Progress.user_id p = User.id u.
Proof. unfold joined. rewrite filter_In, String.eqb_eq. reflexivity. Qed.

(** Either no record of the user is solved and [solved_levels] is 0, or
    [solved_levels] is the greatest level with a solved record. *)
Lemma solved_levels_cases (d : db) (u : User.row) :
  (Board.solved_levels (board_row d u) = 0 /\
   forall p, In p (joined d u) -> Progress.is_solved p <> 1) \/
  (exists p, In p (joined d u) /\ Progress.is_solved p = 1 /\
             Progress.level p = Board.solved_levels (board_row d u)) /\
  (forall p, In p (joined d u) -> Progress.is_solved p = 1 ->
             Progress.level p <= Board.solved_levels (board_row d u)).
Proof.
  unfold board_row. simpl.
  destruct (MAX _) as [m|] eqn:E; simpl.
  - right. apply MAX_Some in E as [(p & Hp & Hin)%in_map_iff Hle]. split.
    + exists p. destruct (Progress.is_solved p =? 1) eqn:S; [|discriminate].
      apply Z.eqb_eq in S. injection Hp as Hp. auto.
    + intros q Hq Hs. apply Hle. apply in_map_iff. exists q.
      apply Z.eqb_eq in Hs. now rewrite Hs.
  - left. split; [reflexivity|]. intros p Hp Hs.
    pose proof (MAX_None _ E _ (in_map _ _ _ Hp)) as H. simpl in H.
    apply Z.eqb_eq in Hs. rewrite Hs in H. discriminate.
Qed.

Section BoardRow.
Context (d : db) (u : User.row) (Hwf : wf d).

Lemma solved_is_one (p : Progress.row) :
  In p (progress d) -> Progress.is_solved p <> 0 -> Progress.is_solved p = 1.
Proof. intros Hp Hs. destruct (wf_stamp d Hwf p Hp) as [[? _]|[? _]]; tauto. Qed.

(** [solved_levels] is the [highestSolved] of the handlers. *)
Lemma solved_levels_highest :
  Board.solved_levels (board_row d u) = highestSolved (select_prog d (User.id u)).
Proof.
  destruct (solved_levels_cases d u) as [[E Hnone]|[(p & Hp & Hs & Hl) Hmax]].
  - rewrite E. symmetry. apply Z.le_antisymm; [|apply highestSolved_nonneg].
    apply highestSolved_le; [lia|]. intros p [Hp Hu]%select_prog_In Hs.
    destruct (Hnone p); [now apply joined_In|now apply solved_is_one].
  - apply Z.le_antisymm.
    + rewrite <- Hl. apply joined_In in Hp as [Hp Hu].
      apply highestSolved_ge; [now apply select_prog_In|lia].
    + apply highestSolved_le.
      * rewrite <- Hl. apply joined_In in Hp as [Hp _].
        pose proof (wf_range d Hwf p Hp). lia.
      * intros q [Hq Hu]%select_prog_In Hsq. apply Hmax; [now apply joined_In|].
        now apply solved_is_one.
Qed.

(** Without a solved level there is no tie-break time. *)
Lemma tiebreak_none :
  Board.solved_levels (board_row d u) = 0 -> Board.tiebreak_ts (board_row d u) = None.
Proof.
  intros E. unfold board_row at 1. simpl. apply MIN_all_None.
  intros v (p & <- & Hp)%in_map_iff.
  destruct (Progress.is_solved p =? 1) eqn:S; [|reflexivity].
  rewrite max_solved_level_row, E.
  destruct (Progress.level p =? 0) eqn:L; [|reflexivity].
  apply joined_In in Hp as [Hp _]. pose proof (wf_range d Hwf p Hp). lia.
Qed.

End BoardRow.

(** ** The leaderboard *)

Lemma StronglySorted_impl {A : Type} (R R' : A -> A -> Prop) (l : list A) :
  (forall x y, R x y -> R' x y) -> StronglySorted R l -> StronglySorted R' l.
Proof.
  intros H. induction 1 as [|x l Hl IH Hx]; constructor; [assumption|].
  eapply Forall_impl; [|exact Hx]. auto.
Qed.


Lemma ranks_before_antisym (a b : Board.row) :
  ranks_before a b -> ranks_before b a -> a = b.
Proof. rewrite <- !board_leb_ranks. apply board_leb_antisym. Qed.

(** Whatever sorted arrangement of the groups the database produces, its
    first hundred rows are those of [select_leaderboard]. *)
Lemma select_leaderboard_any_sort (d : db) (rows : list Board.row) :
  Permutation rows (map (board_row d) (users d)) ->
  StronglySorted ranks_before rows ->
  firstn 100 rows = select_leaderboard d.
Proof.
  intros Hperm Hsorted. unfold select_leaderboard. f_equal.
  apply (sorted_unique ranks_before); [apply ranks_before_antisym|assumption| |].
  - apply StronglySorted_impl with (fun a b => board_leb a b = true);
      [intros x y; apply board_leb_ranks|].
    apply order_by_sorted; [apply board_leb_total|apply board_leb_trans].
  - rewrite Hperm. symmetry. apply order_by_perm.
Qed.

Lemma played_db_reachable : reachable played_db.
Proof. exists history. reflexivity. Qed.



(** *** What an entry shows *)

Lemma leaderboard_reply (d : db) :
  reply (get_leaderboard d)
  = Json 200 (VObj [("leaderboard", VArr (map row_json (select_leaderboard d)))]).
Proof. reflexivity. Qed.

Lemma select_leaderboard_In (d : db) (r : Board.row) :
  In r (select_leaderboard d) -> exists u, In u (users d) /\ r = board_row d u.
Proof.
  unfold select_leaderboard. intros Hr.
  assert (In r (order_by board_leb (map (board_row d) (users d)))) as H.
  { rewrite <- (firstn_skipn 100). apply in_or_app. now left. }
  apply order_by_In, in_map_iff in H as (u & <- & Hu). now exists u.
Qed.

Section Renaming.
Context (f : string -> string) (f_inj : forall a b, f a = f b -> a = b).

Lemma eqb_renamed (a b : string) : (f a =? f b)%string = (a =? b)%string.
Proof.
  destruct (String.eqb_spec a b) as [->|Hne]; [apply String.eqb_refl|].
  apply String.eqb_neq. auto.
Qed.

Lemma joined_renamed (d : db) (u : User.row) :
  joined (rename_ids f d)
    {| User.id := f (User.id u); User.username := User.username u;
       User.password_hash := User.password_hash u;
       User.created_at := User.created_at u |}
  = map (fun p => {| Progress.user_id := f (Progress.user_id p);
                     Progress.level := Progress.level p;
                     Progress.is_solved := Progress.is_solved p;
                     Progress.solved_at := Progress.solved_at p |})
        (joined d u).
Proof.
  unfold joined, rename_ids. simpl. rewrite filter_map_swap. f_equal.
  apply filter_ext. intros p. apply eqb_renamed.
Qed.

Lemma max_solved_level_renamed (d : db) (u : User.row) :
  max_solved_level (rename_ids f d)
    {| User.id := f (User.id u); User.username := User.username u;
       User.password_hash := User.password_hash u;
       User.created_at := User.created_at u |}
  = max_solved_level d u.
Proof.
  unfold max_solved_level, rename_ids. simpl.
  rewrite filter_map_swap, map_map. simpl. do 3 f_equal.
  apply filter_ext. intros p. now rewrite eqb_renamed.
Qed.

Lemma board_row_renamed (d : db) (u : User.row) :
  board_row (rename_ids f d)
    {| User.id := f (User.id u); User.username := User.username u;
       User.password_hash := User.password_hash u;
       User.created_at := User.created_at u |}
  = board_row d u.
Proof.
  unfold board_row.
  rewrite joined_renamed, max_solved_level_renamed, !map_map. reflexivity.
Qed.

(** The leaderboard does not depend on the ids of the users. *)
Lemma get_leaderboard_renamed (d : db) :
  get_leaderboard (rename_ids f d) = get_leaderboard d.
Proof.
  assert (select_leaderboard (rename_ids f d) = select_leaderboard d) as E.
  { unfold select_leaderboard. do 2 f_equal.
    unfold rename_ids at 2. cbn [users]. rewrite map_map.
    apply map_ext. intros u. apply board_row_renamed. }
  unfold get_leaderboard. now rewrite E.
Qed.
End Renaming.

(** C3, as the code has it.  Each entry of the leaderboard is an object of
    exactly the fields [username], [solved_levels] and [tiebreak_ts], the
    values of the row of one user; there are at most 100 entries, in the
    order of the query; and the response is the same under any renaming of
    the user ids. *)
Theorem leaderboard_entries_shape (d : db) (f : string -> string) :
  leaderboard_entries (reply (get_leaderboard d)) = map row_json (select_leaderboard d) /\
  (forall entry,
     In entry (leaderboard_entries (reply (get_leaderboard d))) ->
     field_names entry = ["username"; "solved_levels"; "tiebreak_ts"] /\
     exists u,
       In u (users d) /\
       entry = VObj [("username", VStr (User.username u));
                     ("solved_levels",
                      VNum (NInt (Board.solved_levels (board_row d u))));
                     ("tiebreak_ts", opt_num (Board.tiebreak_ts (board_row d u)))]) /\
  (List.length (leaderboard_entries (reply (get_leaderboard d))) <= 100)%nat /\
  ((forall a b, f a = f b -> a = b) ->
   get_leaderboard (rename_ids f d) = get_leaderboard d).
Proof.
  split; [reflexivity|]. split; [|split].
  - simpl. intros entry (r & <- & Hr)%in_map_iff. split; [reflexivity|].
    apply select_leaderboard_In in Hr as (u & Hu & ->). now exists u.
  - simpl. rewrite length_map. apply firstn_le_length.
  - intros Hinj. now apply get_leaderboard_renamed.
Qed.

Lemma leaderboard_entries_shape_witness :
  get_leaderboard (rename_ids (String "x") played_db) = get_leaderboard played_db.
Proof.
  destruct (leaderboard_entries_shape played_db (String "x")) as (_ & _ & _ & H).
  apply H. intros a b E. injection E as E. exact E.
Defined.

(** C3, as the specification has it, fails: the first entry for the small
    history carries the time at which B solved level 3. *)
Lemma leaderboard_shows_solve_time :
  hd_error (leaderboard_entries (reply (get_leaderboard played_db)))
  = Some (VObj [("username", VStr "userB");
                ("solved_levels", VNum (NInt 3));
                ("tiebreak_ts", VNum (NInt 5))]) /\
  select_already played_db "idB" 3 = Some (solved_row "idB" 3 5) /\
  ~ (forall d entry,
       In entry (leaderboard_entries (reply (get_leaderboard d))) ->
       field_names entry = ["username"; "solved_levels"]).
Proof.
  split; [reflexivity|]. split; [reflexivity|].
  intros H.
  specialize (H played_db
                (VObj [("username", VStr "userB");
                       ("solved_levels", VNum (NInt 3));
                       ("tiebreak_ts", VNum (NInt 5))])
                (or_introl eq_refl)).
  discriminate H.
Qed.

(** ** The lock check *)

Lemma level_one_unlocked (d : db) (uid : string) : unlocked d uid 1.
Proof. unfold unlocked. pose proof (highestSolved_nonneg (select_prog d uid)). lia. Qed.

(** [GET /api/level/:level] fails with [bad_level] exactly when [n] is no
    integer from 1 to N, and for a level with [locked] exactly when
    [n > highestSolved + 1]. *)
Lemma get_level_lock (user : session_user) (level : number) (d : db) :
  (reply (get_level (Some user) level d) = bad_level <->
   ~ exists n, level = NInt n /\ 1 <= n <= N_LEVELS) /\
  (forall n, as_level level = Some n ->
     (reply (get_level (Some user) level d) = locked <->
      highestSolved (select_prog d (sid user)) + 1 < n)).
Proof.
  rewrite <- as_level_None. split.
  - destruct (as_level level) as [n|] eqn:Hl.
    + destruct (get_level_valid user level n d Hl) as (lv & _ & _ & ->).
      split; [|discriminate]. now destruct (_ <? n).
    + unfold get_level, requireAuth. rewrite Hl. now split.
  - intros n Hl. destruct (get_level_valid user level n d Hl) as (lv & _ & _ & ->).
    rewrite <- Z.ltb_lt. destruct (_ <? n); split; try reflexivity; discriminate.
Qed.

(** [POST /api/answer] fails with [bad_level] in the same case, whatever
    the answer, and with [locked] in the same case when the answer has a
    canonical form. *)
Lemma post_answer_lock (user : session_user) (level : number) (answer : value)
    (now : Z) (d : db) :
  (reply (post_answer (Some user) level answer now d) = bad_level <->
   ~ exists n, level = NInt n /\ 1 <= n <= N_LEVELS) /\
  (forall n a, as_level level = Some n -> norm answer = Return a ->
     (reply (post_answer (Some user) level answer now d) = locked <->
      highestSolved (select_prog d (sid user)) + 1 < n)).
Proof.
  rewrite <- as_level_None. split.
  - destruct (as_level level) as [n|] eqn:Hl.
    + split; [|discriminate]. unfold post_answer, requireAuth. rewrite Hl.
      destruct (check_answer n answer) as [c|e]; [|discriminate].
      destruct (_ <? n); [discriminate|].
      destruct c; [|discriminate].
      destruct (select_already _ _ _) as [p|]; [|discriminate].
      destruct (_ =? 0); discriminate.
    + unfold post_answer, requireAuth. rewrite Hl. now split.
  - intros n a Hl Ha. pose proof Hl as [_ Hn]%as_level_Some.
    destruct (level_at_valid n Hn) as (lv & Hlv & _).
    assert (check_answer n answer = Return (a =? Level.answer lv)%string) as Hc.
    { rewrite (check_answer_norm _ _ _ Hlv), Ha. reflexivity. }
    rewrite (post_answer_checked _ _ _ _ _ _ _ Hl Hc), <- Z.ltb_lt.
    destruct (_ <? n); [now split|]. split; [|discriminate].
    destruct (a =? Level.answer lv)%string; [|discriminate].
    destruct (select_already _ _ _) as [p|]; [|discriminate].
    destruct (_ =? 0); discriminate.
Qed.

(** C1, where the code leaves it.  The user "amy" has solved nothing, so
    level 5 is locked and opening it is refused with [locked]; an answer for
    level 5 whose [answer] is an object with a [toString] field of its own
    makes [norm] throw before the lock is looked at, and the request ends in
    the exception instead of [locked]. *)
Theorem answer_lock_skipped_on_throw :
  as_level (NInt 5) = Some 5 /\
  highestSolved (select_prog registered_db (sid amy)) + 1 < 5 /\
  reply (get_level (Some amy) (NInt 5) registered_db) = locked /\
  reply (post_answer (Some amy) (NInt 5) (VStr "7.5") 7 registered_db) = locked /\
  reply (post_answer (Some amy) (NInt 5) (VObj [("toString", VNum (NInt 1))]) 7
           registered_db)
  = Uncaught TypeError.
Proof. repeat split. Qed.

(** ** The canonical form of any value *)



Lemma norm_falsy (v : value) : truthy v = false -> norm v = Return "".
Proof. unfold norm. now intros ->. Qed.


(** A request without an [answer] field is answered with
    [correct = false] at every level that is valid and unlocked. *)
Lemma post_answer_no_answer (user : session_user) (level : number) (n : Z)
    (now : Z) (d : db) :
  as_level level = Some n -> unlocked d (sid user) n ->
  post_answer (Some user) level VUndefined now d
  = send 200 (VObj [("correct", VBool false)]).
Proof.
  intros Hl Hg. pose proof Hl as [_ Hn]%as_level_Some.
  destruct (level_at_valid n Hn) as (lv & Hlv & _).
  assert (check_answer n VUndefined = Return false) as Hc.
  { rewrite (check_answer_norm _ _ _ Hlv). simpl.
    destruct (answers_canonical lv (level_at_In _ _ Hlv)) as [_ Hne].
    destruct (Level.answer lv); [contradiction|reflexivity]. }
  rewrite (post_answer_checked _ _ _ _ _ _ _ Hl Hc).
  apply ltb_unlocked in Hg. now rewrite Hg.
Qed.

(** C10, where the code leaves it.  [norm] maps an absent, a [null] and
    the other falsy answers to the empty text, but it throws on an object
    with a [toString] field of its own, and so does the handler, also at a
    level that is unlocked. *)
Theorem norm_throws_on_own_toString :
  norm VUndefined = Return "" /\ norm VNull = Return "" /\
  norm (VNum (NInt 0)) = Return "" /\ norm (VBool false) = Return "" /\
  norm (VNum (NInt 20)) = Return "20" /\
  norm (VObj [("toString", VNum (NInt 1))]) = Throw TypeError /\
  norm (VArr [VObj [("toString", VNull)]]) = Throw TypeError /\
  unlocked registered_db (sid amy) 1 /\
  reply (post_answer (Some amy) (NInt 1) VUndefined 7 registered_db) = verdict false /\
  reply (post_answer (Some amy) (NInt 1) (VObj [("toString", VNum (NInt 1))]) 7
           registered_db)
  = Uncaught TypeError.
Proof. repeat split. now vm_compute. Qed.

(** ** Registration, as a whole *)

Lemma order_by_seeded (uid : string) (i : Z) (count : nat) :
  order_by (fun p q => Progress.level p <=? Progress.level q) (seeded uid i count)
  = seeded uid i count.
Proof.
  revert i. induction count as [|count IH]; intros i; simpl; [reflexivity|].
  rewrite IH. destruct count as [|count]; simpl; [reflexivity|].
  now rewrite (proj2 (Z.leb_le i (i + 1))) by lia.
Qed.

Lemma filter_seeded (uid : string) (i : Z) (count : nat) :
  filter (fun p => (Progress.user_id p =? uid)%string) (seeded uid i count)
  = seeded uid i count.
Proof.
  revert i. induction count as [|count IH]; intros i; simpl; [reflexivity|].
  now rewrite String.eqb_refl, IH.
Qed.

Lemma filter_none {A : Type} (f : A -> bool) (l : list A) :
  (forall x, In x l -> f x = false) -> filter f l = [].
Proof.
  induction l as [|x l IH]; simpl; intros H; [reflexivity|].
  rewrite (H x (or_introl eq_refl)). apply IH. auto.
Qed.

(** In a database of the shape [wf], a registration that is answered with
    200 leaves the user with exactly the records of the levels 1 to N, all
    unsolved, and every other user's records as they were. *)
Lemma register_seeds_all_levels (id hash : string) (now : Z)
    (username password : option string) (d : db) (body : value) :
  wf d ->
  reply (post_register id hash now username password d) = Json 200 body ->
  select_prog (final d (post_register id hash now username password d)) id
  = seeded id 1 (List.length LEVELS) /\
  exists row,
    User.id row = id /\ username = Some (User.username row) /\
    final d (post_register id hash now username password d)
    = {| users := (users d ++ [row])%list;
         progress := (progress d ++ seeded id 1 (List.length LEVELS))%list |}.
Proof.
  intros Hwf Hreply.
  assert (forall e c, register_catch e <> Json 200 c) as Hcatch.
  { intros [|code] c; simpl; [discriminate|]. destruct (_ =? _)%string; discriminate. }
  unfold post_register in *.
  destruct username as [name|]; [|discriminate].
  destruct password as [pw|]; [|discriminate].
  destruct (_ || _); [discriminate|].
  destruct (_ || _); [discriminate|].
  destruct (_ <? _)%nat; [discriminate|].
  destruct (insert_user _ d) as [d1|e] eqn:E1; [|now destruct (Hcatch e body)].
  destruct (wf_register id hash now name d d1 Hwf E1) as [E2 _].
  unfold transaction. rewrite E2. unfold final. cbn [commits last].
  pose proof E1 as (-> & _ & Hid)%insert_user_Return. cbn [users] in *. split.
  - unfold select_prog. cbn [progress]. rewrite filter_app, filter_seeded, filter_none.
    + apply order_by_seeded.
    + intros p Hp. apply String.eqb_neq. intros Hu.
      apply (wf_owner d Hwf) in Hp as (u & Hu' & Hin)%in_map_iff.
      apply (Hid u Hin). simpl. congruence.
  - eexists. split; [|split; [|reflexivity]]; reflexivity.
Qed.

(** A registration under a name that is taken writes nothing, and is
    answered with [username_taken] when its fields pass the checks of
    length. *)
Lemma register_taken_leaves_nothing (id hash : string) (now : Z)
    (name password : string) (d : db) :
  select_user d name <> None ->
  commits (post_register id hash now (Some name) (Some password) d) = [] /\
  ((3 <= String.length name <= 24)%nat -> (6 <= String.length password)%nat ->
   reply (post_register id hash now (Some name) (Some password) d)
   = Json 409 (VObj [("error", VStr "username_taken")])).
Proof.
  intros Htaken.
  assert (insert_user {| User.id := id; User.username := name;
                         User.password_hash := hash; User.created_at := now |} d
          = Throw (SqliteError SQLITE_CONSTRAINT_UNIQUE)) as E.
  { unfold insert_user. simpl.
    destruct (existsb _ (users d)) eqn:X; [reflexivity|].
    destruct Htaken. unfold select_user.
    destruct (find _ (users d)) as [u|] eqn:F; [|reflexivity].
    apply find_some in F as [Hin Hu].
    assert (existsb (fun u => (User.username u =? name)%string) (users d) = true);
      [|congruence].
    apply existsb_exists. now exists u. }
  unfold post_register. rewrite E. split.
  - destruct (_ || _); [reflexivity|]. destruct (_ || _); [reflexivity|].
    now destruct (_ <? _)%nat.
  - intros [H3 H24] H6.
    destruct name as [|c name]; [simpl in H3; lia|].
    destruct password as [|c' password]; [simpl in H6; lia|].
    cbn [String.eqb orb].
    rewrite (proj2 (Nat.ltb_ge _ _) H3), (proj2 (Nat.ltb_ge _ _) H24),
      (proj2 (Nat.ltb_ge _ _) H6).
    reflexivity.
Qed.

(** C2, where the code leaves it.  Registering "userA" on the empty
    database commits twice: first the user row alone, by the [INSERT] that
    runs outside the transaction, then the ten records; in the first
    committed state the user has none of the N records. *)
Theorem registration_commits_user_first :
  exists d1 d2,
    commits (post_register "idA" "$2b$12$A" 1 (Some "userA") (Some "secretA") empty_db)
    = [d1; d2] /\
    select_user d1 "userA"
    = Some {| User.id := "idA"; User.username := "userA";
              User.password_hash := "$2b$12$A"; User.created_at := 1 |} /\
    select_prog d1 "idA" = [] /\
    reply (get_me (Some userA) d1)
    = Json 200 (VObj [("user", user_json "idA" "userA");
                      ("highestSolved", VNum (NInt 0));
                      ("totalLevels", VNum (NInt 10));
                      ("progress", VArr [])]) /\
    select_prog d2 "idA" = seeded "idA" 1 10.
Proof. do 2 eexists. repeat split. Qed.

(** * Further properties of the handlers *)

(** ** Registration and login *)




Lemma find_app_fresh {A : Type} (P : A -> bool) (l l' : list A) :
  (forall x, In x l' -> P x = false) -> find P (l ++ l') = find P l.
Proof.
  intros H. induction l as [|y l IH]; simpl.
  - destruct (find P l') as [x|] eqn:E; [|reflexivity].
    apply find_some in E as [Hin Hx]. rewrite (H x Hin) in Hx. discriminate.
  - now destruct (P y).
Qed.



(** X2.  A registration whose fields do not pass the checks is answered
    with status 400 and the first failing check, whatever the database
    holds, writes nothing and opens no session: [missing] when a field is
    absent or empty, else [username_length] when the name has fewer than 3
    or more than 24 code units, else [password_length] when the password
    has fewer than 6. *)
Theorem register_rejects_fields (id hash : string) (now : Z) (d : db) :
  (forall username password,
     username = None \/ username = Some "" \/ password = None \/ password = Some "" ->
     post_register id hash now username password d = error 400 "missing") /\
  (forall name pw,
     name <> "" -> pw <> "" ->
     (String.length name < 3 \/ 24 < String.length name)%nat ->
     post_register id hash now (Some name) (Some pw) d = error 400 "username_length") /\
  (forall name pw,
     pw <> "" -> (3 <= String.length name <= 24)%nat -> (String.length pw < 6)%nat ->
     post_register id hash now (Some name) (Some pw) d = error 400 "password_length").
Proof.
  unfold post_register. split; [|split].
  - intros [name|] [pw|] [H|[H|[H|H]]]; try discriminate; try reflexivity;
      injection H as ->; [reflexivity|].
    now rewrite orb_true_r.
  - intros name pw Hn%String.eqb_neq Hp%String.eqb_neq Hlen. rewrite Hn, Hp. cbn [orb].
    destruct Hlen as [H%Nat.ltb_lt|H%Nat.ltb_lt]; rewrite H; [reflexivity|].
    now rewrite orb_true_r.
  - intros name pw Hp%String.eqb_neq [H3%Nat.ltb_ge H24%Nat.ltb_ge] H6%Nat.ltb_lt.
    rewrite Hp, H3, H24, H6.
    destruct name; [discriminate|reflexivity].
Qed.

Lemma register_rejects_fields_witness :
  post_register "idX" "$2b$12$X" 30 (Some "al") (Some "secretX") played_db
  = error 400 "username_length" /\
  post_register "idX" "$2b$12$X" 30 (Some "alice") (Some "short") played_db
  = error 400 "password_length".
Proof.
  destruct (register_rejects_fields "idX" "$2b$12$X" 30 played_db) as (_ & H1 & H2).
  split.
  - apply H1; try discriminate. left. simpl. lia.
  - apply H2; try discriminate; simpl; lia.
Defined.

Lemma post_login_checked (name password : string) (pw_ok : bool) (d : db) :
  name <> "" -> password <> "" ->
  post_login (Some name) (Some password) pw_ok d =
    match select_user d name with
    | None => error 401 "invalid"
    | Some row =>
        if pw_ok
        then {| commits := [];
                session := Some {| sid := User.id row; sname := User.username row |};
                reply := Json 200
                  (VObj [("ok", VBool true);
                         ("user", user_json (User.id row) (User.username row))]) |}
        else error 401 "invalid"
    end.
Proof.
  intros Hn Hp. unfold post_login.
  apply String.eqb_neq in Hn, Hp. now rewrite Hn, Hp.
Qed.

(** X3.  A login with both fields given opens a session exactly when a user
    of that name exists and the password matches; the session is that of the
    stored row, under the name asked for.  An unknown name and a wrong
    password get one and the same result, and no login writes to the
    database. *)
Theorem login_outcomes (name password : string) (pw_ok : bool) (d : db) :
  name <> "" -> password <> "" ->
  commits (post_login (Some name) (Some password) pw_ok d) = [] /\
  ((exists row, select_user d name = Some row /\ pw_ok = true) ->
   exists row,
     select_user d name = Some row /\ User.username row = name /\
     session (post_login (Some name) (Some password) pw_ok d)
     = Some {| sid := User.id row; sname := name |} /\
     reply (post_login (Some name) (Some password) pw_ok d)
     = Json 200 (VObj [("ok", VBool true); ("user", user_json (User.id row) name)])) /\
  (select_user d name = None \/ pw_ok = false ->
   post_login (Some name) (Some password) pw_ok d = error 401 "invalid").
Proof.
  intros Hn Hp. rewrite (post_login_checked _ _ _ _ Hn Hp). split; [|split].
  - destruct (select_user d name); [destruct pw_ok|]; reflexivity.
  - intros (row & Hrow & ->). exists row. rewrite Hrow.
    pose proof Hrow as [_ Hname%String.eqb_eq]%find_some.
    rewrite Hname. repeat split; assumption.
  - intros [-> | ->]; [reflexivity|]. now destruct (select_user d name).
Qed.

Lemma login_outcomes_witness :
  post_login (Some "nobody") (Some "secretA") true played_db
  = post_login (Some "userA") (Some "wrong") false played_db.
Proof.
  destruct (login_outcomes "nobody" "secretA" true played_db) as (_ & _ & H1);
    try discriminate.
  destruct (login_outcomes "userA" "wrong" false played_db) as (_ & _ & H2);
    try discriminate.
  rewrite H1, H2; auto.
Defined.



(** ** What a run keeps *)

Lemma step_users (d : db) (r : request) :
  exists newer, users (step d r) = (users d ++ newer)%list.
Proof.
  destruct (step_cases d r)
    as [->|[(id & hash & now & name & d1 & [-> _]%insert_user_Return
               & [(e & _ & ->)|H])
           |(now & uid & n & p & _ & _ & ->)]].
  - exists []. now rewrite app_nil_r.
  - now eexists.
  - apply seed_from_Return in H as [-> _]. now eexists.
  - exists []. simpl. now rewrite app_nil_r.
Qed.

Lemma run_users (rs : list request) (d : db) :
  exists newer, users (run d rs) = (users d ++ newer)%list.
Proof.
  revert d. induction rs as [|r rs IH]; intros d; simpl.
  - exists []. now rewrite app_nil_r.
  - destruct (IH (step d r)) as (newer & ->).
    destruct (step_users d r) as (newer' & ->).
    exists (newer' ++ newer)%list. now rewrite app_assoc.
Qed.

(** X5.  No request removes or rewrites a user row: after any sequence of
    requests the users are the former ones, in place, followed by the new
    ones, so a name keeps resolving to the same row, with its id and its
    password hash. *)
Theorem users_append_only (d : db) (rs : list request) :
  (exists newer, users (run d rs) = (users d ++ newer)%list) /\
  (forall name row, select_user d name = Some row ->
     select_user (run d rs) name = Some row).
Proof.
  split; [apply run_users|].
  intros name row H. destruct (run_users rs d) as (newer & E).
  unfold select_user. rewrite E. now apply find_app_Some.
Qed.

Lemma users_append_only_witness :
  select_user
    (run played_db
       [ PostRegister "idE" "$2b$12$E" 22 (Some "eve") (Some "secretE");
         PostRegister "idF" "$2b$12$F" 23 (Some "userA") (Some "secretF");
         PostAnswer (Some userA) (NInt 4) (VStr "hunt") 24 ])
    "userA"
  = Some {| User.id := "idA"; User.username := "userA";
            User.password_hash := "$2b$12$A"; User.created_at := 1 |}.
Proof.
  destruct (users_append_only played_db
              [ PostRegister "idE" "$2b$12$E" 22 (Some "eve") (Some "secretE");
                PostRegister "idF" "$2b$12$F" 23 (Some "userA") (Some "secretF");
                PostAnswer (Some userA) (NInt 4) (VStr "hunt") 24 ]) as [_ H].
  apply H. reflexivity.
Defined.

Lemma filter_map_same {A : Type} (P : A -> bool) (f : A -> A) (l : list A) :
  (forall x, P (f x) = P x) -> (forall x, P x = true -> f x = x) ->
  filter P (map f l) = filter P l.
Proof.
  intros H1 H2. induction l as [|x l IH]; simpl; [reflexivity|].
  rewrite H1. destruct (P x) eqn:E; [|exact IH]. now rewrite (H2 x E), IH.
Qed.

Lemma select_prog_update_other (now : Z) (uid uid' : string) (n : Z) (d : db) :
  uid' <> uid ->
  select_prog (update_solved now uid n d) uid' = select_prog d uid'.
Proof.
  intros Hne. unfold select_prog. f_equal. simpl. apply filter_map_same.
  - intros p. now destruct (has_key uid n p).
  - intros p Hp%String.eqb_eq. destruct (has_key uid n p) eqn:K; [|reflexivity].
    apply has_key_true in K as [Hu _]. congruence.
Qed.

Lemma select_prog_seeded_other (d d' : db) (id uid : string) (i : Z) (count : nat) :
  uid <> id -> progress d' = (progress d ++ seeded id i count)%list ->
  select_prog d' uid = select_prog d uid.
Proof.
  intros Hne E. unfold select_prog. rewrite E, filter_app.
  rewrite (filter_none _ (seeded id i count)); [now rewrite app_nil_r|].
  intros p [Hp _]%seeded_In. rewrite Hp. simpl. now apply String.eqb_neq.
Qed.

(** X6.  A user's records are written by nothing but that user's own
    registration and the answers sent in that user's own session: any other
    request leaves the list of the user's records as it is. *)
Theorem records_of_others_untouched (d : db) (r : request) (uid : string) :
  acts_for r <> Some uid -> select_prog (step d r) uid = select_prog d uid.
Proof.
  intros Hother. unfold step.
  destruct r as [id hash now username password|username password pw_ok|sess|sess n
                |sess level answer now|]; simpl in *.
  - assert (uid <> id) as Hne by congruence.
    destruct (post_register_final id hash now username password d)
      as [->|(name & d1 & _ & [-> _]%insert_user_Return & [(e & _ & ->)|[H _]])];
      [reflexivity|reflexivity|].
    apply seed_from_Return in H as [_ Hp].
    now apply (select_prog_seeded_other _ _ id uid 1 (List.length LEVELS)).
  - now rewrite post_login_final.
  - now rewrite get_me_final.
  - now rewrite get_level_final.
  - destruct (post_answer_final sess level answer now d)
      as [->|(user & n & p & -> & _ & _ & _ & _ & _ & ->)]; [reflexivity|].
    apply select_prog_update_other. congruence.
  - reflexivity.
Qed.

Lemma records_of_others_untouched_witness :
  select_prog (step played_db (PostAnswer (Some userA) (NInt 4) (VStr "hunt") 24)) "idB"
  = select_prog played_db "idB".
Proof.
  apply (records_of_others_untouched played_db
           (PostAnswer (Some userA) (NInt 4) (VStr "hunt") 24) "idB").
  discriminate.
Defined.

(** ** One level after the other *)

(** A request that marks a record solved does so for a level that the lock
    check lets through. *)
Lemma step_update_unlocked (d : db) (r : request) :
  step d r = d \/
  (exists fresh, users (step d r) <> users d /\
     progress (step d r) = (progress d ++ fresh)%list) \/
  (exists now uid n p,
     select_already d uid n = Some p /\ Progress.is_solved p = 0 /\
     unlocked d uid n /\ step d r = update_solved now uid n d).
Proof.
  unfold step.
  destruct r as [id hash now username password|username password pw_ok|sess|sess n
                |sess level answer now|]; simpl.
  - destruct (post_register_final id hash now username password d)
      as [H|(name & d1 & _ & [-> _]%insert_user_Return & [(e & _ & ->)|[H _]])];
      [now left| |]; right; left.
    + exists []. simpl. rewrite app_nil_r. split; [|reflexivity].
      intros E. apply (f_equal (@List.length _)) in E. rewrite length_app in E.
      simpl in E. lia.
    + apply seed_from_Return in H as [Hu Hp]. eexists. split; [|exact Hp].
      rewrite Hu. simpl. intros E. apply (f_equal (@List.length _)) in E.
      rewrite length_app in E. simpl in E. lia.
  - left. apply post_login_final.
  - left. apply get_me_final.
  - left. apply get_level_final.
  - destruct (post_answer_final sess level answer now d)
      as [H|(user & n & p & _ & _ & Hg & _ & H1 & H2 & H3)]; [now left|].
    right; right. exists now, (sid user), n, p. auto.
  - now left.
Qed.

Lemma highest_row (d : db) (uid : string) :
  wf d -> 0 < highestSolved (select_prog d uid) ->
  exists p, In p (progress d) /\ Progress.user_id p = uid /\
            Progress.is_solved p <> 0 /\
            Progress.level p = highestSolved (select_prog d uid).
Proof.
  intros Hwf Hpos.
  destruct (highestSolved_attained (select_prog d uid))
    as [E|(p & [Hin Hu]%select_prog_In & Hs & Hl)]; [lia|].
  now exists p.
Qed.

(** In a gapless database of the shape [wf], a record is solved exactly
    when its level is at most the [highestSolved] of its user. *)
Lemma gapless_solved (d : db) (p : Progress.row) :
  wf d -> gapless d -> In p (progress d) ->
  (Progress.is_solved p <> 0 <->
   Progress.level p <= highestSolved (select_prog d (Progress.user_id p))).
Proof.
  intros Hwf Hgap Hp. split.
  - intros Hs. apply highestSolved_ge; [|assumption]. now apply select_prog_In.
  - intros Hle. pose proof (wf_range d Hwf p Hp) as Hrange.
    destruct (highest_row d (Progress.user_id p) Hwf) as (q & Hq & Hu & Hs & Hl); [lia|].
    destruct (Z.eq_dec (Progress.level p) (Progress.level q)) as [E|Hne].
    + assert (p = q) as ->; [|assumption].
      apply (wf_key_unique d); auto. unfold key_of. congruence.
    + apply (Hgap q p); auto. lia.
Qed.

Lemma gapless_update (now : Z) (uid : string) (n : Z) (d : db) :
  wf d -> gapless d -> unlocked d uid n ->
  gapless (update_solved now uid n d).
Proof.
  intros Hwf Hgap Hg p' q' Hp' Hq' Hu Hl Hs.
  apply update_solved_origin in Hp' as (p & Hp & Kp & Cp).
  apply update_solved_origin in Hq' as (q & Hq & Kq & Cq).
  destruct Cq as [->| ->]; [|discriminate].
  injection Kp as Kpu Kpl.
  destruct Cp as [->| ->].
  - apply (Hgap p q); auto.
  - simpl in *. subst.
    apply (gapless_solved d q Hwf Hgap Hq). rewrite <- Hu.
    unfold unlocked in Hg. lia.
Qed.

Lemma gapless_app (d d' : db) (fresh : list Progress.row) :
  gapless d -> progress d' = (progress d ++ fresh)%list ->
  Forall (fun p => Progress.is_solved p = 0 /\ Progress.solved_at p = None) fresh ->
  (forall p q, In p (progress d) -> In q fresh ->
     Progress.user_id p <> Progress.user_id q) ->
  gapless d'.
Proof.
  intros Hgap E Hfresh Hother p q Hp Hq Hu Hl Hs.
  rewrite Forall_forall in Hfresh. rewrite E in Hp, Hq.
  apply in_app_or in Hp as [Hp|Hp]; [|destruct (Hfresh p Hp); congruence].
  apply in_app_or in Hq as [Hq|Hq]; [now apply (Hgap p q)|].
  now destruct (Hother p q Hp Hq).
Qed.

Lemma step_gapless (d : db) (r : request) : wf d -> gapless d -> gapless (step d r).
Proof.
  intros Hwf Hgap.
  destruct (step_cases d r)
    as [->|[(id & hash & now & name & d1 & Hins & Hseed)
           |(now & uid & n & p & _ & _ & E)]]; [assumption| |].
  - pose proof Hins as (-> & _ & Hid)%insert_user_Return. simpl in Hid.
    destruct Hseed as [(e & _ & ->)|H]; [exact Hgap|].
    apply seed_from_Return in H as [_ H].
    apply (gapless_app d _ _ Hgap H).
    + apply Forall_forall. intros p [Hp _]%seeded_In. rewrite Hp. now split.
    + intros p q Hp [Hq _]%seeded_In Heq. rewrite Hq in Heq. simpl in Heq.
      apply (wf_owner d Hwf) in Hp as (u & Hu & Hin)%in_map_iff.
      apply (Hid u Hin). congruence.
  - destruct (step_update_unlocked d r)
      as [->|[(fresh & Hu & _)|(now' & uid' & n' & p' & _ & _ & Hg & ->)]];
      [assumption| |now apply gapless_update].
    rewrite E in Hu. now destruct Hu.
Qed.

Lemma run_gapless (rs : list request) (d : db) : wf d -> gapless d -> gapless (run d rs).
Proof.
  revert d. induction rs as [|r rs IH]; intros d Hwf Hgap; simpl; [assumption|].
  apply IH; [now apply step_wf|now apply step_gapless].
Qed.

Lemma reachable_gapless (d : db) : reachable d -> gapless d.
Proof.
  intros [rs ->]. apply run_gapless; [apply wf_empty|]. intros p q [].
Qed.

Lemma solved_up_to_highest_aux (d : db) (p : Progress.row) :
  wf d -> gapless d -> In p (progress d) ->
  (Progress.is_solved p = 1 <->
   Progress.level p <= highestSolved (select_prog d (Progress.user_id p))) /\
  (Progress.is_solved p = 0 <->
   highestSolved (select_prog d (Progress.user_id p)) < Progress.level p).
Proof.
  intros Hwf Hgap Hp.
  pose proof (gapless_solved d p Hwf Hgap Hp) as H.
  destruct (wf_stamp d Hwf p Hp) as [[E _]|[E _]]; rewrite E in *; split; split;
    try lia; try discriminate; intros; tauto.
Qed.

(** X7.  In every database that the server reaches the solved records of a
    user are those of the levels 1 to [highestSolved]: a record is solved
    exactly when its level is at most the [highestSolved] of its user, so
    no level is ever solved over an unsolved one. *)
Theorem solved_up_to_highest (d : db) (p : Progress.row) :
  reachable d -> In p (progress d) ->
  (Progress.is_solved p = 1 <->
   Progress.level p <= highestSolved (select_prog d (Progress.user_id p))) /\
  (Progress.is_solved p = 0 <->
   highestSolved (select_prog d (Progress.user_id p)) < Progress.level p).
Proof.
  intros Hreach Hp.
  apply solved_up_to_highest_aux;
    [now apply reachable_wf|now apply reachable_gapless|assumption].
Qed.

Lemma solved_up_to_highest_witness :
  Progress.is_solved (solved_row "idA" 3 10) = 1 <->
  Progress.level (solved_row "idA" 3 10)
  <= highestSolved (select_prog played_db (Progress.user_id (solved_row "idA" 3 10))).
Proof.
  refine (proj1 (solved_up_to_highest played_db (solved_row "idA" 3 10)
                   (ex_intro _ history eq_refl) _)).
  vm_compute. tauto.
Defined.

Lemma highest_after_update (now : Z) (uid : string) (n : Z) (d : db) (p : Progress.row) :
  select_already d uid n = Some p ->
  n = highestSolved (select_prog d uid) + 1 ->
  highestSolved (select_prog (update_solved now uid n d) uid) = n.
Proof.
  intros Hp Hnext.
  pose proof (select_already_update now _ _ _ _ Hp) as Hrow.
  apply Z.le_antisymm.
  - apply highestSolved_le;
      [pose proof (highestSolved_nonneg (select_prog d uid)); lia|].
    intros q [Hq Hu]%select_prog_In Hsolved.
    apply update_solved_In in Hq as [[Hq _]| ->]; [|simpl; lia].
    assert (Progress.level q <= highestSolved (select_prog d uid)).
    { apply highestSolved_ge; [|assumption]. apply select_prog_In. now split. }
    lia.
  - apply select_already_Some in Hrow as (Hin & _ & _).
    apply (highestSolved_ge _ (solved_row uid n now)); [|discriminate].
    apply select_prog_In. now split.
Qed.

Lemma highest_bounded (d : db) (uid : string) :
  wf d -> 0 <= highestSolved (select_prog d uid) <= N_LEVELS.
Proof.
  intros Hwf. split; [apply highestSolved_nonneg|].
  apply highestSolved_le; [unfold N_LEVELS; simpl; lia|].
  intros p [Hp _]%select_prog_In _. now apply (wf_range d Hwf).
Qed.

(** X8.  In every database that the server reaches, an answer that changes
    the database is a correct answer for the level [highestSolved + 1] of
    the user of the session, and it raises that user's [highestSolved] by
    exactly one; [highestSolved] stays between 0 and N. *)
Theorem solving_advances_by_one (sess : option session_user) (level : number)
    (answer : value) (now : Z) (d : db) :
  reachable d ->
  final d (post_answer sess level answer now d) <> d ->
  exists user n,
    sess = Some user /\ as_level level = Some n /\
    check_answer n answer = Return true /\
    n = highestSolved (select_prog d (sid user)) + 1 /\
    highestSolved
      (select_prog (final d (post_answer sess level answer now d)) (sid user))
    = highestSolved (select_prog d (sid user)) + 1 /\
    highestSolved (select_prog d (sid user)) + 1 <= N_LEVELS.
Proof.
  intros Hreach Hchange.
  pose proof (reachable_wf d Hreach) as Hwf.
  destruct (post_answer_final sess level answer now d)
    as [H|(user & n & p & -> & Hl & Hg & Hc & Hp & Hs & ->)]; [contradiction|].
  exists user, n.
  assert (n = highestSolved (select_prog d (sid user)) + 1) as Hn.
  { pose proof Hp as (Hin & Hu & Hlev)%select_already_Some.
    destruct (solved_up_to_highest_aux d p Hwf (reachable_gapless d Hreach) Hin)
      as [_ H0].
    rewrite Hu, Hlev in H0. apply H0 in Hs. unfold unlocked in Hg. lia. }
  repeat split; try assumption.
  - rewrite <- Hn. now apply highest_after_update with p.
  - rewrite <- Hn. now apply as_level_Some in Hl.
Qed.

Lemma solving_advances_by_one_witness :
  highestSolved
    (select_prog
       (final played_db (post_answer (Some userA) (NInt 4) (VStr "hunt") 24 played_db))
       "idA")
  = highestSolved (select_prog played_db "idA") + 1.
Proof.
  destruct (solving_advances_by_one (Some userA) (NInt 4) (VStr "hunt") 24 played_db
              (ex_intro _ history eq_refl))
    as (user & n & Hu & _ & _ & _ & H & _).
  - vm_compute. discriminate.
  - injection Hu as <-. exact H.
Defined.

(** ** What [GET /api/me] lists *)

Lemma levels_from_In (first : Z) (count : nat) (x : Z) :
  In x (levels_from first count) <-> first <= x < first + Z.of_nat count.
Proof.
  revert first. induction count as [|count IH]; intros first; simpl; [lia|].
  rewrite IH. lia.
Qed.

Lemma levels_from_NoDup (first : Z) (count : nat) : NoDup (levels_from first count).
Proof.
  revert first. induction count as [|count IH]; intros first; simpl; constructor;
    [|apply IH].
  rewrite levels_from_In. lia.
Qed.

Lemma levels_from_sorted (first : Z) (count : nat) :
  StronglySorted Z.le (levels_from first count).
Proof.
  revert first. induction count as [|count IH]; intros first; simpl; constructor;
    [apply IH|].
  apply Forall_forall. intros x Hx%levels_from_In. lia.
Qed.

Lemma StronglySorted_map {A B : Type} (R : B -> B -> Prop) (f : A -> B) (l : list A) :
  StronglySorted (fun a b => R (f a) (f b)) l -> StronglySorted R (map f l).
Proof.
  induction 1 as [|x l Hl IH Hx]; simpl; constructor; [assumption|].
  apply Forall_forall. intros y (a & <- & Ha)%in_map_iff.
  rewrite Forall_forall in Hx. now apply Hx.
Qed.

(** [ORDER BY level ASC] gives the records in ascending order of level. *)
Lemma select_prog_sorted (d : db) (uid : string) :
  StronglySorted Z.le (map Progress.level (select_prog d uid)).
Proof.
  apply StronglySorted_map. unfold select_prog.
  apply StronglySorted_impl with
    (fun p q => (Progress.level p <=? Progress.level q) = true).
  - intros p q. apply Z.leb_le.
  - apply order_by_sorted.
    + intros p q. rewrite !Z.leb_le. lia.
    + intros p q r. rewrite !Z.leb_le. lia.
Qed.

Lemma levels_of_user_NoDup (uid : string) (l : list Progress.row) :
  NoDup (map key_of l) ->
  NoDup (map Progress.level (filter (fun p => (Progress.user_id p =? uid)%string) l)).
Proof.
  induction l as [|x l IH]; simpl; [constructor|].
  intros [Hx Hl]%NoDup_cons_iff.
  destruct (String.eqb_spec (Progress.user_id x) uid) as [Hu|Hu]; [|now apply IH].
  simpl. constructor; [|now apply IH].
  intros (y & Hy & [Hin Huy%String.eqb_eq]%filter_In)%in_map_iff.
  apply Hx. apply in_map_iff. exists y. split; [|assumption].
  unfold key_of. congruence.
Qed.

(** The levels of the records of a registered user, in the order of the
    query. *)
Lemma select_prog_levels (d : db) (u : User.row) :
  wf d -> In u (users d) ->
  map Progress.level (select_prog d (User.id u)) = levels_from 1 (List.length LEVELS).
Proof.
  intros Hwf Hu.
  apply (sorted_unique Z.le); [intros x y; lia|apply select_prog_sorted
                              |apply levels_from_sorted|].
  apply NoDup_Permutation; [|apply levels_from_NoDup|].
  - unfold select_prog.
    eapply Permutation_NoDup;
      [apply Permutation_map, Permutation_sym, order_by_perm|].
    apply levels_of_user_NoDup, (wf_keys d Hwf).
  - intros x. rewrite levels_from_In, in_map_iff. split.
    + intros (p & <- & [Hp _]%select_prog_In).
      pose proof (wf_range d Hwf p Hp). unfold N_LEVELS in *. lia.
    + intros Hx. destruct (wf_seeded d Hwf u x Hu) as (p & Hp & [= Hpu Hpl]);
        [unfold N_LEVELS; lia|].
      exists p. split; [assumption|]. now apply select_prog_In.
Qed.

(** X9.  In every database that the server reaches, the records that
    [GET /api/me] lists for a registered user are those of the levels
    1, 2, ..., N in this order, one each; the record of a level is solved
    with a time when the level is at most the [highestSolved] that the
    response reports, and unsolved without a time otherwise. *)
Theorem me_lists_every_level (d : db) (u : User.row) :
  reachable d -> In u (users d) ->
  map Progress.level (select_prog d (User.id u)) = levels_from 1 (List.length LEVELS) /\
  forall p, In p (select_prog d (User.id u)) ->
    (Progress.level p <= highestSolved (select_prog d (User.id u)) ->
     Progress.is_solved p = 1 /\ exists t, Progress.solved_at p = Some t) /\
    (highestSolved (select_prog d (User.id u)) < Progress.level p ->
     Progress.is_solved p = 0 /\ Progress.solved_at p = None).
Proof.
  intros Hreach Hu. pose proof (reachable_wf d Hreach) as Hwf. split.
  - now apply select_prog_levels.
  - intros p [Hp Hpu]%select_prog_In.
    destruct (solved_up_to_highest_aux d p Hwf (reachable_gapless d Hreach) Hp)
      as [H1 H0].
    rewrite Hpu in H1, H0.
    destruct (wf_stamp d Hwf p Hp) as [[E0 Et]|[E1 Et]]; split; intros Hle.
    + apply H1 in Hle. congruence.
    + now split.
    + now split.
    + apply H0 in Hle. congruence.
Qed.

Lemma me_lists_every_level_witness :
  map Progress.level (select_prog played_db "idB") = [1; 2; 3; 4; 5; 6; 7; 8; 9; 10].
Proof.
  refine (proj1 (me_lists_every_level played_db
                   {| User.id := "idB"; User.username := "userB";
                      User.password_hash := "$2b$12$B"; User.created_at := 2 |}
                   (ex_intro _ history eq_refl) _)).
  vm_compute. tauto.
Defined.

(** ** Who is on the leaderboard *)

Lemma board_row_username (d : db) (us : list User.row) :
  map Board.username (map (board_row d) us) = map User.username us.
Proof. rewrite map_map. reflexivity. Qed.

Lemma StronglySorted_app_inv {A : Type} (R : A -> A -> Prop) (l1 l2 : list A) :
  StronglySorted R (l1 ++ l2) -> forall a b, In a l1 -> In b l2 -> R a b.
Proof.
  induction l1 as [|x l1 IH]; simpl; [tauto|].
  intros [Hl Hx]%StronglySorted_inv a b [<-|Ha] Hb.
  - rewrite Forall_forall in Hx. apply Hx, in_or_app. now right.
  - now apply IH.
Qed.

(** X10.  The leaderboard has one row per user up to a hundred: its length
    is the smaller of 100 and the number of users; with at most 100 users
    its names are those of all users; and in a database of the shape [wf]
    no name occurs twice. *)
Theorem leaderboard_one_row_per_user (d : db) :
  List.length (select_leaderboard d) = Nat.min 100 (List.length (users d)) /\
  ((List.length (users d) <= 100)%nat ->
   Permutation (map Board.username (select_leaderboard d))
               (map User.username (users d))) /\
  (wf d -> NoDup (map Board.username (select_leaderboard d))).
Proof.
  unfold select_leaderboard. split; [|split].
  - now rewrite length_firstn, order_by_length, length_map.
  - intros Hle. rewrite firstn_all2 by now rewrite order_by_length, length_map.
    rewrite <- (board_row_username d). apply Permutation_map, order_by_perm.
  - intros Hwf. rewrite <- firstn_map.
    set (names := map Board.username
                    (order_by board_leb (map (board_row d) (users d)))).
    assert (NoDup names) as Hnames.
    { apply Permutation_NoDup with (map User.username (users d));
        [|apply (wf_names d Hwf)].
      rewrite <- (board_row_username d).
      apply Permutation_map, Permutation_sym, order_by_perm. }
    rewrite <- (firstn_skipn 100 names) in Hnames.
    now apply NoDup_app_remove_r in Hnames.
Qed.

Lemma leaderboard_one_row_per_user_witness :
  Permutation (map Board.username (select_leaderboard played_db))
              (map User.username (users played_db)).
Proof.
  destruct (leaderboard_one_row_per_user played_db) as (_ & H & _).
  apply H. simpl. lia.
Defined.

(** X11.  [LIMIT 100] cuts from the end of the ranking: a user whose row is
    not on the leaderboard ranks after every row that is. *)
Theorem leaderboard_keeps_the_best (d : db) (u : User.row) (a : Board.row) :
  In u (users d) -> ~ In (board_row d u) (select_leaderboard d) ->
  In a (select_leaderboard d) -> ranks_before a (board_row d u).
Proof.
  unfold select_leaderboard. intros Hu Hout Ha.
  set (sorted := order_by board_leb (map (board_row d) (users d))) in *.
  assert (In (board_row d u) (skipn 100 sorted)) as Hrest.
  { assert (In (board_row d u) sorted) as H by now apply order_by_In, in_map.
    rewrite <- (firstn_skipn 100 sorted) in H.
    apply in_app_or in H as [H|H]; [contradiction|assumption]. }
  apply board_leb_ranks.
  apply (StronglySorted_app_inv (fun a b => board_leb a b = true)
           (firstn 100 sorted) (skipn 100 sorted)); try assumption.
  rewrite firstn_skipn. apply order_by_sorted;
    [apply board_leb_total|apply board_leb_trans].
Qed.

Lemma leaderboard_keeps_the_best_witness :
  ranks_before
    {| Board.username := "user100"; Board.solved_levels := 0; Board.tiebreak_ts := None |}
    (board_row crowded_db
       {| User.id := "id200"; User.username := "user200";
          User.password_hash := "$2b$12$"; User.created_at := 200 |}).
Proof.
  apply (leaderboard_keeps_the_best crowded_db).
  - apply in_or_app with (l := firstn 100 (users crowded_db))
                         (m := skipn 100 (users crowded_db)).
    right. vm_compute. now left.
  - vm_compute. intros H.
    repeat (destruct H as [H|H]; [discriminate H|]). exact H.
  - vm_compute. now left.
Defined.

(** ** From one level to the next *)

(** X12.  In every database that the server reaches, an answer that
    changes the database was sent for a level [n] whose successor was
    locked until then; afterwards the user may open the levels up to
    [n + 1] and no further: [GET /api/level/m] is answered with [locked]
    exactly for the levels [m > n + 1]. *)
Theorem solving_opens_the_next_level (user : session_user) (level : number)
    (answer : value) (now : Z) (d : db) :
  reachable d ->
  final d (post_answer (Some user) level answer now d) <> d ->
  exists n,
    as_level level = Some n /\
    (forall m, as_level (NInt m) = Some m ->
       (reply (get_level (Some user) (NInt m) d) = locked <-> n < m) /\
       (reply (get_level (Some user) (NInt m)
                 (final d (post_answer (Some user) level answer now d))) = locked
        <-> n + 1 < m)).
Proof.
  intros Hreach Hchange.
  pose proof (reachable_wf d Hreach) as Hwf.
  destruct (post_answer_final (Some user) level answer now d)
    as [H|(user' & n & p & [= <-] & Hl & Hg & Hc & Hp & Hs & E)]; [contradiction|].
  exists n. split; [assumption|]. rewrite E.
  assert (n = highestSolved (select_prog d (sid user)) + 1) as Hn.
  { pose proof Hp as (Hin & Hu & Hlev)%select_already_Some.
    destruct (solved_up_to_highest_aux d p Hwf (reachable_gapless d Hreach) Hin)
      as [_ H0].
    rewrite Hu, Hlev in H0. apply H0 in Hs. unfold unlocked in Hg. lia. }
  intros m Hm. split.
  - rewrite (proj2 (get_level_lock user (NInt m) d) m Hm). lia.
  - rewrite (proj2 (get_level_lock user (NInt m) _) m Hm).
    rewrite (highest_after_update now (sid user) n d p Hp Hn). lia.
Qed.

Lemma solving_opens_the_next_level_witness :
  exists n,
    as_level (NInt 4) = Some n /\
    reply (get_level (Some userA) (NInt 5) played_db) = locked /\
    reply (get_level (Some userA) (NInt 5)
             (final played_db
                (post_answer (Some userA) (NInt 4) (VStr "hunt") 24 played_db)))
    <> locked.
Proof.
  destruct (solving_opens_the_next_level userA (NInt 4) (VStr "hunt") 24 played_db
              (ex_intro _ history eq_refl)) as (n & Hn & H).
  - vm_compute. discriminate.
  - exists n. split; [exact Hn|].
    injection Hn as <-. destruct (H 5 eq_refl) as [H1 H2].
    split; [apply H1; lia|]. intros E. apply H2 in E. lia.
Defined.

Lemma count_levels_from (h first : Z) (count : nat) :
  Z.of_nat (List.length (filter (fun x => x <=? h) (levels_from first count)))
  = Z.max 0 (Z.min (h - first + 1) (Z.of_nat count)).
Proof.
  revert first. induction count as [|count IH]; intros first; [simpl; lia|].
  cbn [levels_from filter].
  destruct (first <=? h) eqn:E.
  - apply Z.leb_le in E. cbn [List.length]. rewrite Nat2Z.inj_succ, IH. lia.
  - apply Z.leb_gt in E. rewrite IH. lia.
Qed.

Lemma filter_length_perm {A : Type} (f : A -> bool) (l l' : list A) :
  Permutation l l' -> List.length (filter f l) = List.length (filter f l').
Proof.
  induction 1 as [|x l l' _ IH|x y l|l l' l'' _ IH _ IH']; simpl;
    [reflexivity|destruct (f x); simpl; congruence
    |destruct (f x), (f y); reflexivity|congruence].
Qed.

(** X13.  In every database that the server reaches, the [solved_levels]
    that the leaderboard shows for a user is the number of that user's
    solved records, and lies between 0 and N. *)
Theorem solved_levels_counts_solved (d : db) (u : User.row) :
  reachable d -> In u (users d) ->
  Board.solved_levels (board_row d u)
  = Z.of_nat (List.length (filter (fun p => Progress.is_solved p =? 1) (joined d u))) /\
  0 <= Board.solved_levels (board_row d u) <= N_LEVELS.
Proof.
  intros Hreach Hu. pose proof (reachable_wf d Hreach) as Hwf.
  pose proof (highest_bounded d (User.id u) Hwf) as Hbound.
  rewrite (solved_levels_highest d u Hwf). split; [|assumption].
  set (h := highestSolved (select_prog d (User.id u))) in *.
  rewrite (filter_length_perm _ (joined d u) (select_prog d (User.id u)))
    by (symmetry; apply order_by_perm).
  rewrite (filter_ext_in _ (fun p => Progress.level p <=? h)).
  - assert (List.length (filter (fun p => Progress.level p <=? h)
                            (select_prog d (User.id u)))
            = List.length (filter (fun x => x <=? h)
                             (map Progress.level (select_prog d (User.id u))))) as ->
      by now rewrite filter_map_swap, length_map.
    rewrite (select_prog_levels d u Hwf Hu).
    rewrite count_levels_from. unfold N_LEVELS in Hbound. lia.
  - intros p [Hp Hpu]%select_prog_In.
    destruct (solved_up_to_highest_aux d p Hwf (reachable_gapless d Hreach) Hp)
      as [H1 _].
    rewrite Hpu in H1. fold h in H1.
    destruct (Z.eqb_spec (Progress.is_solved p) 1) as [E|E];
      destruct (Z.leb_spec (Progress.level p) h); try reflexivity; tauto || lia.
Qed.

Lemma solved_levels_counts_solved_witness :
  Board.solved_levels
    (board_row played_db
       {| User.id := "idB"; User.username := "userB";
          User.password_hash := "$2b$12$B"; User.created_at := 2 |})
  = 3.
Proof.
  refine (proj1 (solved_levels_counts_solved played_db
                   {| User.id := "idB"; User.username := "userB";
                      User.password_hash := "$2b$12$B"; User.created_at := 2 |}
                   (ex_intro _ history eq_refl) _)).
  vm_compute. tauto.
Defined.

(** ** The canonical form, once more *)

Lemma trimEnd_cons (c : ascii) (s : string) :
  trimEnd (String c s)
  = match trimEnd s with
    | EmptyString => if is_white c then EmptyString else String c EmptyString
    | kept => String c kept
    end.
Proof. reflexivity. Qed.

Lemma trimEnd_idempotent (s : string) : trimEnd (trimEnd s) = trimEnd s.
Proof.
  induction s as [|c s IH]; [reflexivity|].
  rewrite trimEnd_cons. destruct (trimEnd s) as [|c' kept] eqn:E.
  - destruct (is_white c) eqn:W; [reflexivity|]. rewrite trimEnd_cons. simpl.
    now rewrite W.
  - now rewrite trimEnd_cons, IH.
Qed.

Lemma trimStart_trimEnd_trimStart (s : string) :
  trimStart (trimEnd (trimStart s)) = trimEnd (trimStart s).
Proof.
  induction s as [|c s IH]; simpl; [reflexivity|].
  destruct (is_white c) eqn:W; [exact IH|].
  rewrite trimEnd_cons. destruct (trimEnd s); rewrite ?W; simpl; now rewrite W.
Qed.

Lemma trim_idempotent (s : string) : trim (trim s) = trim s.
Proof.
  unfold trim. now rewrite trimStart_trimEnd_trimStart, trimEnd_idempotent.
Qed.

(** X14.  What [norm] returns is canonical: it has no white space at either
    end and no upper-case letter, and [norm] returns it unchanged; so the
    verdict on a canonical form is the verdict on the answer it came
    from. *)
Theorem norm_is_canonical (v : value) (s : string) :
  norm v = Return s ->
  trim s = s /\ toLowerCase s = s /\ norm (VStr s) = Return s /\
  forall n, check_answer n (VStr s) = check_answer n v.
Proof.
  intros H. pose proof H as H'. unfold norm in H'.
  destruct (toString _) as [str|e]; [|discriminate].
  simpl in H'. injection H' as <-.
  assert (trim (toLowerCase (trim str)) = toLowerCase (trim str)) as Htrim
    by now rewrite <- toLowerCase_trim, trim_idempotent.
  assert (norm (VStr (toLowerCase (trim str))) = Return (toLowerCase (trim str))) as Hn
    by now rewrite norm_string, Htrim, toLowerCase_idempotent.
  repeat split; try assumption; [apply toLowerCase_idempotent|].
  intros n. unfold check_answer. now rewrite Hn, H.
Qed.

Lemma norm_is_canonical_witness :
  norm (VStr "echo") = Return "echo" /\
  check_answer 1 (VStr "echo") = check_answer 1 (VStr "  ECHO ").
Proof.
  destruct (norm_is_canonical (VStr "  ECHO ") "echo" eq_refl) as (_ & _ & H1 & H2).
  split; [exact H1|exact (H2 1)].
Defined.

(** X15.  An answer that is no text is matched as the text that
    [toString] makes of it: an array of one text as that text, an integer
    other than zero as its decimal digits; zero, like a missing answer, is
    matched as the empty text and never as ["0"]. *)
Theorem answers_that_are_no_text (n : Z) :
  (forall s, check_answer n (VArr [VStr s]) = check_answer n (VStr s)) /\
  (forall z, z <> 0 ->
     check_answer n (VNum (NInt z))
     = check_answer n (VStr (NilEmpty.string_of_int (Z.to_int z)))) /\
  check_answer n (VNum (NInt 0)) = check_answer n VUndefined /\
  norm (VNum (NInt 0)) <> norm (VStr "0").
Proof.
  assert (forall v s, norm v = Return (toLowerCase (trim s)) ->
                      check_answer n v = check_answer n (VStr s)) as H.
  { intros v s Hv. unfold check_answer. now rewrite Hv, norm_string. }
  split; [|split; [|split]].
  - intros s. apply H. reflexivity.
  - intros z Hz. apply H. unfold norm. simpl.
    apply Z.eqb_neq in Hz. now rewrite Hz.
  - reflexivity.
  - discriminate.
Qed.

Lemma answers_that_are_no_text_witness :
  check_answer 9 (VNum (NInt 20)) = Return true.
Proof.
  destruct (answers_that_are_no_text 9) as (_ & H & _).
  rewrite H; [reflexivity|discriminate].
Defined.

(** ** The page and the server *)

Lemma get_me_reply (user : session_user) (d : db) :
  reply (get_me (Some user) d) = Json 200 (me_json (me_of user d)).
Proof. unfold get_me, me_json, me_of. simpl. now rewrite map_map. Qed.

Lemma find_map {A B : Type} (P : B -> bool) (f : A -> B) (l : list A) :
  find P (map f l) = option_map f (find (fun x => P (f x)) l).
Proof.
  induction l as [|x l IH]; simpl; [reflexivity|]. now destruct (P (f x)).
Qed.

Lemma nth_error_levels_from (first : Z) (count k : nat) :
  (k < count)%nat -> nth_error (levels_from first count) k = Some (first + Z.of_nat k).
Proof.
  revert first k. induction count as [|count IH]; intros first [|k] Hk; try lia.
  - simpl. f_equal. lia.
  - simpl. rewrite IH by lia. f_equal. lia.
Qed.

Lemma levels_from_length (first : Z) (count : nat) :
  List.length (levels_from first count) = count.
Proof. revert first. induction count as [|count IH]; intros; simpl; auto. Qed.

(** The flag that the page computes from [state.me] is the flag that
    [GET /api/level/:level] sends. *)
Lemma tile_solved (user : session_user) (d : db) (i : Z) :
  match find (fun p => Me.level p =? i) (Me.progress (me_of user d)) with
  | Some p => Me.is_solved p =? 1
  | None => false
  end
  = match select_already d (sid user) i with
    | Some p => Progress.is_solved p =? 1
    | None => false
    end.
Proof.
  unfold me_of. cbn [Me.progress]. rewrite find_map. cbn [Me.level].
  rewrite find_select_prog. now destruct (select_already d (sid user) i).
Qed.

(** X16.  The page shows one tile per level, in order, and agrees with the
    server on each: the tile of level [i] listens to clicks exactly when
    [GET /api/level/i] is not answered with [locked], the click loads level
    [i], and the tile has the class [solved] exactly when the server reports
    the level as solved. *)
Theorem tiles_agree_with_server (user : session_user) (d : db) (i : Z) :
  1 <= i <= N_LEVELS ->
  reply (get_me (Some user) d) = Json 200 (me_json (me_of user d)) /\
  List.length (renderLevels (me_of user d)) = List.length LEVELS /\
  nth_error (renderLevels (me_of user d)) (Z.to_nat (i - 1))
  = Some (render_tile (me_of user d) i) /\
  (onclick (render_tile (me_of user d) i) = None <->
   reply (get_level (Some user) (NInt i) d) = locked) /\
  (onclick (render_tile (me_of user d) i) = Some i <->
   exists lv,
     level_at i = Return lv /\
     reply (get_level (Some user) (NInt i) d)
     = Json 200
         (VObj [("level", VNum (NInt i));
                ("prompt", VStr (Level.prompt lv));
                ("is_solved",
                 VBool (existsb (String.eqb "solved")
                          (className (render_tile (me_of user d) i))))])).
Proof.
  intros Hi. split; [apply get_me_reply|].
  assert (Z.to_nat (Me.totalLevels (me_of user d)) = List.length LEVELS) as Htotal
    by (unfold me_of, N_LEVELS; cbn [Me.totalLevels]; apply Nat2Z.id).
  split; [|split].
  - unfold renderLevels. now rewrite length_map, levels_from_length.
  - unfold renderLevels. rewrite Htotal.
    unfold N_LEVELS in Hi. change (List.length LEVELS) with 10%nat in *.
    rewrite nth_error_map.
    rewrite (nth_error_levels_from 1 10 (Z.to_nat (i - 1))) by lia.
    cbn [option_map]. do 2 f_equal. lia.
  - assert (as_level (NInt i) = Some i) as Hl by now apply as_level_Some.
    destruct (get_level_valid user (NInt i) i d Hl) as (lv & Hlv & _ & ->).
    unfold render_tile. cbn [onclick className]. rewrite tile_solved.
    cbn [Me.highestSolved me_of].
    rewrite (Z.ltb_antisym i (highestSolved (select_prog d (sid user)) + 1)).
    destruct (i <=? highestSolved (select_prog d (sid user)) + 1); cbn [negb].
    + split; [split; [discriminate|discriminate]|].
      split; [intros _; exists lv; split; [assumption|]|reflexivity].
      destruct (match select_already d (sid user) i with
                | Some p => Progress.is_solved p =? 1
                | None => false
                end); reflexivity.
    + split; [now split|]. split; [discriminate|].
      intros (lv' & _ & [=]).
Qed.

Lemma tiles_agree_with_server_witness :
  nth_error (renderLevels (me_of userA played_db)) 3
  = Some {| className := ["level"; "unlocked"]; textContent := "Level 4";
            onclick := Some 4 |} /\
  (onclick (render_tile (me_of userA played_db) 5) = None <->
   reply (get_level (Some userA) (NInt 5) played_db) = locked).
Proof.
  destruct (tiles_agree_with_server userA played_db 4) as (_ & _ & H & _);
    [unfold N_LEVELS; simpl; lia|].
  destruct (tiles_agree_with_server userA played_db 5) as (_ & _ & _ & H' & _);
    [unfold N_LEVELS; simpl; lia|].
  split; [exact H|exact H'].
Defined.

(** X17.  The level that the page asks for is one the server opens, with
    one exception.  After a correct answer the page loads a further level
    only when the smaller of [highestSolved + 1] and N is above the current
    level, and the server opens that level.  After a login it asks for
    [highestSolved + 1]: the server opens it and reports it unsolved as long
    as [highestSolved] is below N; once every level is solved the page asks
    for level N + 1 and gets [bad_level]. *)
Theorem page_asks_for_the_open_level (user : session_user) (d : db) :
  (forall currentLevel m,
     1 <= currentLevel -> next_level (me_of user d) currentLevel = Some m ->
     m = Z.min (highestSolved (select_prog d (sid user)) + 1) N_LEVELS /\
     currentLevel < m /\
     exists lv solved,
       level_at m = Return lv /\
       reply (get_level (Some user) (NInt m) d)
       = Json 200 (VObj [("level", VNum (NInt m));
                         ("prompt", VStr (Level.prompt lv));
                         ("is_solved", VBool solved)])) /\
  first_level (me_of user d) = highestSolved (select_prog d (sid user)) + 1 /\
  (highestSolved (select_prog d (sid user)) < N_LEVELS ->
   exists lv,
     level_at (first_level (me_of user d)) = Return lv /\
     reply (get_level (Some user) (NInt (first_level (me_of user d))) d)
     = Json 200 (VObj [("level", VNum (NInt (first_level (me_of user d))));
                       ("prompt", VStr (Level.prompt lv));
                       ("is_solved", VBool false)])) /\
  (N_LEVELS <= highestSolved (select_prog d (sid user)) ->
   reply (get_level (Some user) (NInt (first_level (me_of user d))) d) = bad_level /\
   next_level (me_of user d) N_LEVELS = None).
Proof.
  pose proof (highestSolved_nonneg (select_prog d (sid user))) as Hpos.
  assert (first_level (me_of user d) = highestSolved (select_prog d (sid user)) + 1)
    as Hfirst.
  { unfold first_level, me_of. cbn [Me.highestSolved].
    destruct (Z.eqb_spec (highestSolved (select_prog d (sid user)) + 1) 0); [lia|].
    reflexivity. }
  split; [|split; [exact Hfirst|split]].
  - intros cur m Hcur. unfold next_level, me_of. cbn [Me.highestSolved Me.totalLevels].
    destruct (_ && _) eqn:C; [|discriminate]. intros [= <-].
    apply andb_prop in C as [C1%Z.ltb_lt C2%Z.leb_le].
    set (m := Z.min (highestSolved (select_prog d (sid user)) + 1) N_LEVELS) in *.
    assert (as_level (NInt m) = Some m) as Hl by (apply as_level_Some; split; [auto|lia]).
    assert (m <= highestSolved (select_prog d (sid user)) + 1) as Hm by (unfold m; lia).
    destruct (get_level_valid user (NInt m) m d Hl) as (lv & Hlv & _ & E).
    rewrite E, (proj2 (ltb_unlocked d (sid user) m) Hm).
    repeat split; try assumption. exists lv. now eexists.
  - intros Hlt. rewrite Hfirst.
    set (m := highestSolved (select_prog d (sid user)) + 1) in *.
    assert (as_level (NInt m) = Some m) as Hl
      by (apply as_level_Some; split; [auto|unfold m; lia]).
    destruct (get_level_valid user (NInt m) m d Hl) as (lv & Hlv & _ & E).
    exists lv. split; [assumption|].
    rewrite E, (proj2 (ltb_unlocked d (sid user) m)) by (unfold unlocked, m; lia).
    destruct (select_already d (sid user) m) as [p|] eqn:Hp; [|reflexivity].
    destruct (Z.eqb_spec (Progress.is_solved p) 1) as [Hs|Hs]; [|reflexivity].
    pose proof Hp as (Hin & Hu & Hlev)%select_already_Some.
    assert (Progress.level p <= highestSolved (select_prog d (sid user))).
    { apply highestSolved_ge; [now apply select_prog_In|lia]. }
    unfold m in Hlev. lia.
  - intros Hge. split.
    + rewrite Hfirst. apply (proj1 (get_level_lock user _ d)).
      intros (n & [= <-] & Hn). lia.
    + unfold next_level, me_of. cbn [Me.highestSolved Me.totalLevels].
      rewrite Z.min_r by lia. now rewrite Z.ltb_irrefl.
Qed.

Lemma page_asks_for_the_open_level_witness :
  next_level (me_of userA played_db) 3 = Some 4 /\
  exists lv solved,
    level_at 4 = Return lv /\
    reply (get_level (Some userA) (NInt 4) played_db)
    = Json 200 (VObj [("level", VNum (NInt 4));
                      ("prompt", VStr (Level.prompt lv));
                      ("is_solved", VBool solved)]).
Proof.
  destruct (page_asks_for_the_open_level userA played_db) as (H & _).
  split; [reflexivity|].
  destruct (H 3 4) as (_ & _ & H'); [lia|reflexivity|exact H'].
Defined.

(** ** A new account *)

Lemma highestSolved_seeded (uid : string) (i : Z) (count : nat) :
  highestSolved (seeded uid i count) = 0.
Proof.
  unfold highestSolved. revert i. induction count as [|count IH]; intros i; simpl; auto.
Qed.

(** What a registration that is answered with 200 has done. *)
Lemma post_register_ok (id hash : string) (now : Z) (name password : string)
    (d : db) (body : value) :
  wf d ->
  reply (post_register id hash now (Some name) (Some password) d) = Json 200 body ->
  session (post_register id hash now (Some name) (Some password) d)
  = Some {| sid := id; sname := name |} /\
  final d (post_register id hash now (Some name) (Some password) d)
  = {| users := (users d ++
                 [ {| User.id := id; User.username := name;
                      User.password_hash := hash; User.created_at := now |} ])%list;
       progress := (progress d ++ seeded id 1 (List.length LEVELS))%list |}.
Proof.
  intros Hwf Hreply.
  assert (forall e c, register_catch e <> Json 200 c) as Hcatch.
  { intros [|code] c; simpl; [discriminate|]. destruct (_ =? _)%string; discriminate. }
  unfold post_register in *.
  destruct ((name =? "")%string || (password =? "")%string); [discriminate|].
  destruct ((String.length name <? 3)%nat || (24 <? String.length name)%nat);
    [discriminate|].
  destruct (String.length password <? 6)%nat; [discriminate|].
  destruct (insert_user _ d) as [d1|e] eqn:E1; [|now destruct (Hcatch e body)].
  destruct (wf_register id hash now name d d1 Hwf E1) as [E2 _].
  unfold transaction. rewrite E2. unfold final. cbn [commits last session].
  apply insert_user_Return in E1 as (-> & _ & _). now split.
Qed.

(** X18.  In a database of the shape [wf], right after a registration that
    is answered with 200 the new user has [highestSolved] 0: level 1 opens
    and is reported unsolved, every further level is locked, and the row of
    the user among the groups of the leaderboard has no solved level and no
    tie-break time. *)
Theorem new_user_starts_at_level_one (id hash : string) (now : Z)
    (name password : string) (d : db) (body : value) :
  wf d ->
  reply (post_register id hash now (Some name) (Some password) d) = Json 200 body ->
  session (post_register id hash now (Some name) (Some password) d)
  = Some {| sid := id; sname := name |} /\
  reply (get_level (Some {| sid := id; sname := name |}) (NInt 1)
           (final d (post_register id hash now (Some name) (Some password) d)))
  = Json 200 (VObj [("level", VNum (NInt 1));
                    ("prompt",
                     VStr "I speak without a mouth and hear without ears. What am I?");
                    ("is_solved", VBool false)]) /\
  (forall m, 1 < m <= N_LEVELS ->
     reply (get_level (Some {| sid := id; sname := name |}) (NInt m)
              (final d (post_register id hash now (Some name) (Some password) d)))
     = locked) /\
  board_row (final d (post_register id hash now (Some name) (Some password) d))
    {| User.id := id; User.username := name;
       User.password_hash := hash; User.created_at := now |}
  = {| Board.username := name; Board.solved_levels := 0; Board.tiebreak_ts := None |}.
Proof.
  intros Hwf Hreply.
  destruct (register_seeds_all_levels id hash now (Some name) (Some password) d body
              Hwf Hreply) as (Hprog & _).
  destruct (post_register_ok id hash now name password d body Hwf Hreply)
    as (Hsess & Hfinal).
  pose proof (run_wf [PostRegister id hash now (Some name) (Some password)] d Hwf)
    as Hwf'.
  change (wf (final d (post_register id hash now (Some name) (Some password) d)))
    in Hwf'.
  set (d' := final d (post_register id hash now (Some name) (Some password) d)) in *.
  assert (highestSolved (select_prog d' id) = 0) as Hzero
    by (rewrite Hprog; apply highestSolved_seeded).
  split; [exact Hsess|]. split; [|split].
  - destruct (get_level_valid {| sid := id; sname := name |} (NInt 1) 1 d' eq_refl)
      as (lv & [= <-] & _ & ->).
    cbn [sid]. rewrite Hzero. cbn [Z.add Z.ltb Z.compare Pos.compare Pos.compare_cont].
    rewrite <- find_select_prog, Hprog. reflexivity.
  - intros m Hm.
    apply (proj2 (get_level_lock {| sid := id; sname := name |} (NInt m) d') m).
    + now apply as_level_Some; split; [|lia].
    + cbn [sid]. rewrite Hzero. lia.
  - set (u := {| User.id := id; User.username := name;
                 User.password_hash := hash; User.created_at := now |}).
    pose proof (solved_levels_highest d' u Hwf') as H1.
    cbn [User.id u] in H1. rewrite Hzero in H1.
    pose proof (tiebreak_none d' u Hwf' H1) as H2.
    unfold board_row in *. cbn [Board.solved_levels Board.tiebreak_ts] in H1, H2.
    now rewrite H1, H2.
Qed.

Lemma new_user_starts_at_level_one_witness :
  reply (get_level (Some {| sid := "idE"; sname := "eve" |}) (NInt 2)
           (final played_db
              (post_register "idE" "$2b$12$E" 22 (Some "eve") (Some "secretE") played_db)))
  = locked.
Proof.
  destruct (new_user_starts_at_level_one "idE" "$2b$12$E" 22 "eve" "secretE" played_db
              (VObj [("ok", VBool true); ("user", user_json "idE" "eve")]))
    as (_ & _ & H & _).
  - apply run_wf with (rs := history) (d := empty_db), wf_empty.
  - reflexivity.
  - apply H. unfold N_LEVELS. simpl. lia.
Defined.

(** ** Where a handler can throw *)







